(** * Spiking-neuron update rules of [brainpy/_src/dyn/neurons/lif.py]

    A shallow embedding of the discrete-time [update] / [reset_state]
    methods of the integrate-and-fire families (LIF, AdEx, AdQua, GIF,
    Izhikevich, with and without refractory period), together with the
    properties stated about them.

    Conventions.
    - Array elements are exact rationals [Q]; the array engine's floats
      are idealised, so statements about equality of committed values are
      statements about which operand a [where]/[maximum] selects or which
      arithmetic expression is evaluated.
    - A tensor is flattened to one dimension ([Vec]); a Python scalar or a
      scalar parameter is [Scal] and broadcasts against any tensor.
      Elementwise operations on two tensors follow the shorter operand;
      the array engine raises on non-conforming shapes, which is outside
      the properties below: every statement is about an index at which
      all operands have an element.
    - [stop_gradient] is the identity on values; gradient flow is not part
      of the model.
    - The shared clock ([share.load('t')], [share.load('dt')]) is passed
      explicitly as a [Share] record.
    - [odeint(method=..., f=...)] belongs to the external numerical
      framework; each model carries its [method] as a field that turns a
      derivative function into a one-step integrator.
    - Classes without a module of their own repeat the text of an
      embedded one and differ only in the derivative behind
      [self.integral]: [ExpIFLTC.update] and [QuaIFLTC.update] are
      [LifLTC.update]; [ExpIFRefLTC] and [QuaIFRefLTC] have the [update]
      and [reset_state] of [LifRefLTC]; [AdQuaIFRefLTC.update] is
      [AdExIFRefLTC.update]. *)

From Stdlib Require Import QArith Qminmax Lqa.
From stdpp Require Import base option list strings.

Local Open Scope Q_scope.

(** ** Arrays with scalar broadcasting *)

Inductive Arr (A : Type) : Type :=
  | Scal (a : A)
  | Vec (l : list A).
Arguments Scal {A} a.
Arguments Vec {A} l.

Definition get {A} (x : Arr A) (i : nat) : option A :=
  match x with
  | Scal a => Some a
  | Vec l => l !! i
  end.

Definition amap {A B} (f : A -> B) (x : Arr A) : Arr B :=
  match x with
  | Scal a => Scal (f a)
  | Vec l => Vec (f <$> l)
  end.

Definition map2 {A B C} (f : A -> B -> C) (x : Arr A) (y : Arr B) : Arr C :=
  match x, y with
  | Scal a, Scal b => Scal (f a b)
  | Scal a, Vec k => Vec (f a <$> k)
  | Vec l, Scal b => Vec ((fun a => f a b) <$> l)
  | Vec l, Vec k => Vec (zip_with f l k)
  end.

Arguments amap : simpl never.
Arguments map2 : simpl never.

Definition Qgt_bool (a b : Q) : bool := negb (Qle_bool a b).

Definition add : Arr Q -> Arr Q -> Arr Q := map2 Qplus.
Definition sub : Arr Q -> Arr Q -> Arr Q := map2 Qminus.
Definition mul : Arr Q -> Arr Q -> Arr Q := map2 Qmult.
Definition div : Arr Q -> Arr Q -> Arr Q := map2 Qdiv.
Definition neg : Arr Q -> Arr Q := amap Qopp.
Definition ge : Arr Q -> Arr Q -> Arr bool := map2 (fun a b => Qle_bool b a).
Definition le : Arr Q -> Arr Q -> Arr bool := map2 Qle_bool.
Definition gt : Arr Q -> Arr Q -> Arr bool := map2 Qgt_bool.

Arguments add : simpl never.
Arguments sub : simpl never.
Arguments mul : simpl never.
Arguments div : simpl never.
Arguments neg : simpl never.
Arguments ge : simpl never.
Arguments le : simpl never.
Arguments gt : simpl never.

Declare Scope arr_scope.
Delimit Scope arr_scope with arr.
Infix ".+" := add (at level 50, left associativity) : arr_scope.
Infix ".-" := sub (at level 50, left associativity) : arr_scope.
Infix ".*" := mul (at level 40, left associativity) : arr_scope.
Infix "./" := div (at level 40, left associativity) : arr_scope.
Infix ".>=" := ge (at level 70, no associativity) : arr_scope.
Infix ".<=" := le (at level 70, no associativity) : arr_scope.
Infix ".>" := gt (at level 70, no associativity) : arr_scope.
Local Open Scope arr_scope.

(** [bm.where(c, x, y)], [bm.maximum], [bm.logical_or]. *)
Definition bm_where {A} (c : Arr bool) (x y : Arr A) : Arr A :=
  map2 (fun (b : bool) (p : A * A) => if b then fst p else snd p) c (map2 pair x y).
Definition bm_maximum : Arr Q -> Arr Q -> Arr Q := map2 Qmax.
Definition bm_minimum : Arr Q -> Arr Q -> Arr Q := map2 Qmin.
Definition bm_logical_or : Arr bool -> Arr bool -> Arr bool := map2 orb.
Arguments bm_where : simpl never.
Arguments bm_maximum : simpl never.
Arguments bm_minimum : simpl never.
Arguments bm_logical_or : simpl never.

(** [jax.lax.stop_gradient]: the identity in the forward pass. *)
Definition stop_gradient {A} (x : A) : A := x.

(** ** [brainpy/_src/math/activations.py]: two piecewise-linear activations *)

Definition relu6 (x : Arr Q) : Arr Q :=
  bm_minimum (bm_maximum x (Scal 0)) (Scal 6).

Definition hard_sigmoid (x : Arr Q) : Arr Q :=
  relu6 (x .+ Scal 3) ./ Scal 6.

(** The value an elementwise function takes on one element. *)
Definition at_scalar (f : Arr Q -> Arr Q) (x : Q) : Q :=
  match f (Scal x) with
  | Scal y => y
  | Vec _ => 0
  end.

(** ** Shared clock, modes, spike tensors *)

Record Share := mkShare { share_t : Q; share_dt : Q }.

Inductive Mode := NonBatchingMode | BatchingMode | TrainingMode.

(** [isinstance(self.mode, bm.TrainingMode)] *)
Definition isTraining (m : Mode) : bool :=
  match m with TrainingMode => true | _ => false end.

Inductive DType := DBool | DFloat.

(** The spike variable holds booleans (hard indicator) or floats
    (surrogate output). *)
Inductive Spk :=
  | SpkBool (s : Arr bool)
  | SpkFloat (s : Arr Q).

(** An initializer produces the elements of a tensor of a requested size. *)
Definition Initializer := nat -> list Q.
Definition ZeroInit : Initializer := fun n => replicate n 0.
Definition OneInit (c : Q) : Initializer := fun n => replicate n c.

(** One-step integrator obtained from a derivative over the state [S]:
    [odeint(method, f)(state, t, x, dt)]. *)
Definition Odeint (S : Type) : Type :=
  (S -> Q -> Arr Q -> S) -> S -> Q -> Arr Q -> Q -> S.

(** Attributes every model inherits from [GradNeuDyn]. *)
Record GradNeuDyn := mkGradNeuDyn {
  num : nat;                                   (* number of neurons *)
  mode : Mode;
  spk_fun : Q -> Q;                            (* elementwise surrogate *)
  spk_type : DType;
  detach_spk : bool;
  cur_inputs : list (string * (Arr Q -> Arr Q)) (* registered current inputs *)
}.

(** Number of elements of a state variable: [(batch?, *varshape)]. *)
Definition variable_size (g : GradNeuDyn) (batch_size : option nat) : nat :=
  match batch_size with
  | None => num g
  | Some b => (b * num g)%nat
  end.

Definition init_variable (g : GradNeuDyn) (init : Initializer)
    (batch_size : option nat) : Arr Q :=
  Vec (init (variable_size g batch_size)).

Definition init_variable_bool (g : GradNeuDyn) (batch_size : option nat) : Arr bool :=
  Vec (replicate (variable_size g batch_size) false).

(** [init_variable(partial(bm.zeros, dtype=self.spk_type), batch_size)] *)
Definition init_spike (g : GradNeuDyn) (batch_size : option nat) : Spk :=
  match spk_type g with
  | DBool => SpkBool (init_variable_bool g batch_size)
  | DFloat => SpkFloat (init_variable g ZeroInit batch_size)
  end.

(** [for out in self.cur_inputs.values(): I += out(V)] *)
Definition sum_cur_inputs (g : GradNeuDyn) (V : Arr Q) (I : Arr Q) : Arr Q :=
  foldl (fun I out => I .+ snd out V) I (cur_inputs g).

(** [x = 0. if x is None else x] *)
Definition input_or_zero (x : option (Arr Q)) : Arr Q :=
  match x with None => Scal 0 | Some x => x end.

(** [self.spk_fun(z)] applied elementwise, then the optional detach. *)
Definition surrogate (g : GradNeuDyn) (z : Arr Q) : Arr Q := amap (spk_fun g) z.
Definition detach (g : GradNeuDyn) (s : Arr Q) : Arr Q :=
  if detach_spk g then stop_gradient s else s.

(** ** LifLTC and Lif *)

Module LifLTC.
Record t := mk {
  base : GradNeuDyn;
  V_rest : Arr Q;
  V_reset : Arr Q;
  V_th : Arr Q;
  R : Arr Q;
  tau : Arr Q;
  V_initializer : Initializer;
  method : Odeint (Arr Q)
}.

Record state := mkState { V : Arr Q; spike : Spk }.

Definition derivative (self : t) (V : Arr Q) (t : Q) (I : Arr Q) : Arr Q :=
  let I := sum_cur_inputs (base self) V I in
  (neg V .+ V_rest self .+ R self .* I) ./ tau self.

(** [self.integral = odeint(method=method, f=self.derivative)] *)
Definition integral (self : t) : Arr Q -> Q -> Arr Q -> Q -> Arr Q :=
  method self (derivative self).

Definition reset_state (self : t) (st : state) (batch_size : option nat) : state :=
  {| V := init_variable (base self) (V_initializer self) batch_size;
     spike := init_spike (base self) batch_size |}.

(** The body of [LifLTC.update]; [integral] is [self.integral], which a
    subclass builds from its own [derivative]. *)
Definition update_with (integral : Arr Q -> Q -> Arr Q -> Q -> Arr Q)
    (self : t) (sh : Share) (st : state) (x : option (Arr Q))
    : state * option Spk :=
  let t := share_t sh in
  let dt := share_dt sh in
  let x := input_or_zero x in
  let V := integral (V st) t x dt in
  if isTraining (mode (base self)) then
    let spike := surrogate (base self) (V .- V_th self) in
    let spike := detach (base self) spike in
    let V := V .+ (V_reset self .- V) .* spike in
    ({| V := V; spike := SpkFloat spike |}, Some (SpkFloat spike))
  else
    let spike := V .>= V_th self in
    let V := bm_where spike (V_reset self) V in
    ({| V := V; spike := SpkBool spike |}, Some (SpkBool spike)).

Definition update (self : t) := update_with (integral self) self.

Definition return_info (st : state) : Spk := spike st.

(** A simulation driver: one [update] per clock tick, return values
    dropped. *)
Definition run (self : t) (ticks : list (Share * option (Arr Q))) (st : state) : state :=
  foldl (fun st tick => fst (update self (fst tick) st (snd tick))) st ticks.
End LifLTC.

Module Lif.
Import LifLTC.

Definition derivative (self : t) (V : Arr Q) (t : Q) (I : Arr Q) : Arr Q :=
  (neg V .+ V_rest self .+ R self .* I) ./ tau self.

Definition integral (self : t) : Arr Q -> Q -> Arr Q -> Q -> Arr Q :=
  method self (derivative self).

(** [super().update(x)] is called for its effect; the method has no
    [return] statement, so the call evaluates to [None]. *)
Definition update (self : t) (sh : Share) (st : state) (x : option (Arr Q))
    : state * option Spk :=
  let x := input_or_zero x in
  let x := sum_cur_inputs (base self) (V st) x in
  let '(st', _) := LifLTC.update_with (integral self) self sh st (Some x) in
  (st', None).
End Lif.

(** ** LifRefLTC and LifRef *)

Module LifRefLTC.
Record t := mk {
  lif : LifLTC.t;
  tau_ref : Arr Q;
  ref_var : bool
}.

Record state := mkState {
  V : Arr Q;
  spike : Spk;
  t_last_spike : Arr Q;
  refractory : option (Arr bool)  (* present only when [ref_var] *)
}.

Definition base (self : t) : GradNeuDyn := LifLTC.base (lif self).
Definition V_reset (self : t) : Arr Q := LifLTC.V_reset (lif self).
Definition V_th (self : t) : Arr Q := LifLTC.V_th (lif self).

Definition integral (self : t) : Arr Q -> Q -> Arr Q -> Q -> Arr Q :=
  LifLTC.method (lif self) (LifLTC.derivative (lif self)).

(** [self.t_last_spike = init_variable(bm.ones, ...)] followed by
    [fill_(-1e7)]. *)
Definition reset_state (self : t) (st : state) (batch_size : option nat) : state :=
  let super := LifLTC.reset_state (lif self) (LifLTC.mkState (V st) (spike st)) batch_size in
  {| V := LifLTC.V super;
     spike := LifLTC.spike super;
     t_last_spike := init_variable (base self) (OneInit (-1e7)) batch_size;
     refractory :=
       if ref_var self then Some (init_variable_bool (base self) batch_size)
       else refractory st |}.

(** [refractory = (t - self.t_last_spike) <= self.tau_ref] *)
Definition gate (self : t) (sh : Share) (st : state) : Arr bool :=
  (Scal (share_t sh) .- t_last_spike st) .<= tau_ref self.

Definition update_with (integral : Arr Q -> Q -> Arr Q -> Q -> Arr Q)
    (self : t) (sh : Share) (st : state) (x : option (Arr Q))
    : state * option Spk :=
  let t := share_t sh in
  let dt := share_dt sh in
  let x := input_or_zero x in
  let V := integral (V st) t x dt in
  let refractory_ := (Scal t .- t_last_spike st) .<= tau_ref self in
  let refractory_ :=
    if isTraining (mode (base self)) then stop_gradient refractory_ else refractory_ in
  let V := bm_where refractory_ (LifRefLTC.V st) V in
  if isTraining (mode (base self)) then
    let spike := surrogate (base self) (V .- V_th self) in
    let spike_no_grad := detach (base self) spike in
    let V := V .+ (V_reset self .- V) .* spike_no_grad in
    let spike_ := spike_no_grad .> Scal 0 in
    let refr :=
      if ref_var self then Some (stop_gradient (bm_logical_or refractory_ spike_))
      else refractory st in
    let t_last_spike := stop_gradient (bm_where spike_ (Scal t) (t_last_spike st)) in
    ({| V := V; spike := SpkFloat spike;
        t_last_spike := t_last_spike; refractory := refr |},
     Some (SpkFloat spike))
  else
    let spike := V .>= V_th self in
    let V := bm_where spike (V_reset self) V in
    let refr :=
      if ref_var self then Some (bm_logical_or refractory_ spike)
      else refractory st in
    let t_last_spike := bm_where spike (Scal t) (t_last_spike st) in
    ({| V := V; spike := SpkBool spike;
        t_last_spike := t_last_spike; refractory := refr |},
     Some (SpkBool spike)).

Definition update (self : t) := update_with (integral self) self.

(** A simulation driver: one [update] per clock tick, return values
    dropped. *)
Definition run (self : t) (ticks : list (Share * option (Arr Q))) (st : state) : state :=
  foldl (fun st tick => fst (update self (fst tick) st (snd tick))) st ticks.
End LifRefLTC.

Module LifRef.
Import LifRefLTC.

Definition integral (self : t) : Arr Q -> Q -> Arr Q -> Q -> Arr Q :=
  LifLTC.method (lif self) (Lif.derivative (lif self)).

Definition update (self : t) (sh : Share) (st : state) (x : option (Arr Q))
    : state * option Spk :=
  let x := input_or_zero x in
  let x := sum_cur_inputs (base self) (V st) x in
  let '(st', _) := LifRefLTC.update_with (integral self) self sh st (Some x) in
  (st', None).
End LifRef.

(** ** AdExIFLTC, AdExIF and AdExIFRefLTC *)

Module AdExIFLTC.
Record t := mk {
  base : GradNeuDyn;
  V_rest : Arr Q;
  V_reset : Arr Q;
  V_th : Arr Q;
  V_T : Arr Q;
  delta_T : Arr Q;
  a : Arr Q;
  b : Arr Q;
  R : Arr Q;
  tau : Arr Q;
  tau_w : Arr Q;
  V_initializer : Initializer;
  w_initializer : Initializer;
  bm_exp : Q -> Q;   (* the array engine's elementwise exponential *)
  method : Odeint (Arr Q * Arr Q)
}.

Record state := mkState { V : Arr Q; w : Arr Q; spike : Spk }.

Definition dV (self : t) (V : Arr Q) (t : Q) (w : Arr Q) (I : Arr Q) : Arr Q :=
  let I := sum_cur_inputs (base self) V I in
  let exp := delta_T self .* amap (bm_exp self) ((V .- V_T self) ./ delta_T self) in
  (neg V .+ V_rest self .+ exp .- R self .* w .+ R self .* I) ./ tau self.

Definition dw (self : t) (w : Arr Q) (t : Q) (V : Arr Q) : Arr Q :=
  (a self .* (V .- V_rest self) .- w) ./ tau_w self.

(** [JointEq([self.dV, self.dw])] *)
Definition derivative (self : t) (s : Arr Q * Arr Q) (t : Q) (I : Arr Q)
    : Arr Q * Arr Q :=
  (dV self (fst s) t (snd s) I, dw self (snd s) t (fst s)).

Definition integral (self : t) (V w : Arr Q) (t : Q) (x : Arr Q) (dt : Q)
    : Arr Q * Arr Q :=
  method self (derivative self) (V, w) t x dt.

Definition reset_state (self : t) (st : state) (batch_size : option nat) : state :=
  {| V := init_variable (base self) (V_initializer self) batch_size;
     w := init_variable (base self) (w_initializer self) batch_size;
     spike := init_spike (base self) batch_size |}.

Definition update_with (integral : Arr Q -> Arr Q -> Q -> Arr Q -> Q -> Arr Q * Arr Q)
    (self : t) (sh : Share) (st : state) (x : option (Arr Q))
    : state * option Spk :=
  let t := share_t sh in
  let dt := share_dt sh in
  let x := input_or_zero x in
  let '(V, w) := integral (V st) (w st) t x dt in
  if isTraining (mode (base self)) then
    let spike := surrogate (base self) (V .- V_th self) in
    let spike := detach (base self) spike in
    let V := V .+ (V_reset self .- V) .* spike in
    let w := w .+ b self .* spike in
    ({| V := V; w := w; spike := SpkFloat spike |}, Some (SpkFloat spike))
  else
    let spike := V .>= V_th self in
    let V := bm_where spike (V_reset self) V in
    let w := bm_where spike (w .+ b self) w in
    ({| V := V; w := w; spike := SpkBool spike |}, Some (SpkBool spike)).

Definition update (self : t) := update_with (integral self) self.
End AdExIFLTC.

Module AdExIF.
Import AdExIFLTC.

Definition dV (self : t) (V : Arr Q) (t : Q) (w : Arr Q) (I : Arr Q) : Arr Q :=
  let exp := delta_T self .* amap (bm_exp self) ((V .- V_T self) ./ delta_T self) in
  (neg V .+ V_rest self .+ exp .- R self .* w .+ R self .* I) ./ tau self.

Definition dw (self : t) (w : Arr Q) (t : Q) (V : Arr Q) : Arr Q :=
  (a self .* (V .- V_rest self) .- w) ./ tau_w self.

Definition derivative (self : t) (s : Arr Q * Arr Q) (t : Q) (I : Arr Q)
    : Arr Q * Arr Q :=
  (dV self (fst s) t (snd s) I, dw self (snd s) t (fst s)).

Definition integral (self : t) (V w : Arr Q) (t : Q) (x : Arr Q) (dt : Q)
    : Arr Q * Arr Q :=
  method self (derivative self) (V, w) t x dt.

Definition update (self : t) (sh : Share) (st : state) (x : option (Arr Q))
    : state * option Spk :=
  let x := input_or_zero x in
  let x := sum_cur_inputs (base self) (V st) x in
  let '(st', _) := AdExIFLTC.update_with (integral self) self sh st (Some x) in
  (st', None).
End AdExIF.

Module AdExIFRefLTC.
Record t := mk {
  adex : AdExIFLTC.t;
  tau_ref : Arr Q;
  ref_var : bool
}.

Record state := mkState {
  V : Arr Q;
  w : Arr Q;
  spike : Spk;
  t_last_spike : Arr Q;
  refractory : option (Arr bool)
}.

Definition base (self : t) : GradNeuDyn := AdExIFLTC.base (adex self).
Definition V_reset (self : t) : Arr Q := AdExIFLTC.V_reset (adex self).
Definition V_th (self : t) : Arr Q := AdExIFLTC.V_th (adex self).
Definition b (self : t) : Arr Q := AdExIFLTC.b (adex self).

Definition integral (self : t) : Arr Q -> Arr Q -> Q -> Arr Q -> Q -> Arr Q * Arr Q :=
  AdExIFLTC.integral (adex self).

Definition gate (self : t) (sh : Share) (st : state) : Arr bool :=
  (Scal (share_t sh) .- t_last_spike st) .<= tau_ref self.

Definition update (self : t) (sh : Share) (st : state) (x : option (Arr Q))
    : state * option Spk :=
  let t := share_t sh in
  let dt := share_dt sh in
  let x := input_or_zero x in
  let '(V, w) := integral self (V st) (w st) t x dt in
  let refractory_ := (Scal t .- t_last_spike st) .<= tau_ref self in
  let refractory_ :=
    if isTraining (mode (base self)) then stop_gradient refractory_ else refractory_ in
  let V := bm_where refractory_ (AdExIFRefLTC.V st) V in
  if isTraining (mode (base self)) then
    let spike := surrogate (base self) (V .- V_th self) in
    let spike_no_grad := detach (base self) spike in
    let V := V .+ (V_reset self .- V) .* spike_no_grad in
    let w := w .+ b self .* spike_no_grad in
    let spike_ := spike_no_grad .> Scal 0 in
    let refr :=
      if ref_var self then Some (stop_gradient (bm_logical_or refractory_ spike_))
      else refractory st in
    let t_last_spike := stop_gradient (bm_where spike_ (Scal t) (t_last_spike st)) in
    ({| V := V; w := w; spike := SpkFloat spike;
        t_last_spike := t_last_spike; refractory := refr |},
     Some (SpkFloat spike))
  else
    let spike := V .>= V_th self in
    let V := bm_where spike (V_reset self) V in
    let w := bm_where spike (w .+ b self) w in
    let refr :=
      if ref_var self then Some (bm_logical_or refractory_ spike)
      else refractory st in
    let t_last_spike := bm_where spike (Scal t) (t_last_spike st) in
    ({| V := V; w := w; spike := SpkBool spike;
        t_last_spike := t_last_spike; refractory := refr |},
     Some (SpkBool spike)).
End AdExIFRefLTC.

(** ** AdQuaIFLTC *)

Module AdQuaIFLTC.
Record t := mk {
  base : GradNeuDyn;
  V_rest : Arr Q;
  V_reset : Arr Q;
  V_th : Arr Q;
  V_c : Arr Q;
  a : Arr Q;
  b : Arr Q;
  c : Arr Q;
  tau : Arr Q;
  tau_w : Arr Q;
  V_initializer : Initializer;
  w_initializer : Initializer;
  method : Odeint (Arr Q * Arr Q)
}.

Record state := mkState { V : Arr Q; w : Arr Q; spike : Spk }.

Definition dV (self : t) (V : Arr Q) (t : Q) (w : Arr Q) (I : Arr Q) : Arr Q :=
  let I := sum_cur_inputs (base self) V I in
  (c self .* (V .- V_rest self) .* (V .- V_c self) .- w .+ I) ./ tau self.

Definition dw (self : t) (w : Arr Q) (t : Q) (V : Arr Q) : Arr Q :=
  (a self .* (V .- V_rest self) .- w) ./ tau_w self.

Definition derivative (self : t) (s : Arr Q * Arr Q) (t : Q) (I : Arr Q)
    : Arr Q * Arr Q :=
  (dV self (fst s) t (snd s) I, dw self (snd s) t (fst s)).

Definition integral (self : t) (V w : Arr Q) (t : Q) (x : Arr Q) (dt : Q)
    : Arr Q * Arr Q :=
  method self (derivative self) (V, w) t x dt.

Definition update (self : t) (sh : Share) (st : state) (x : option (Arr Q))
    : state * option Spk :=
  let t := share_t sh in
  let dt := share_dt sh in
  let x := input_or_zero x in
  let '(V, w) := integral self (V st) (w st) t x dt in
  if isTraining (mode (base self)) then
    let spike := surrogate (base self) (V .- V_th self) in
    let spike := detach (base self) spike in
    let V := V .+ (V_reset self .- V) .* spike in
    let w := w .+ b self .* spike in
    ({| V := V; w := w; spike := SpkFloat spike |}, Some (SpkFloat spike))
  else
    let spike := V .>= V_th self in
    let V := bm_where spike (V_reset self) V in
    let w := bm_where spike (w .+ b self) w in
    ({| V := V; w := w; spike := SpkBool spike |}, Some (SpkBool spike)).
End AdQuaIFLTC.

(** ** GifLTC and GifRefLTC *)

Module GifLTC.
Record t := mk {
  base : GradNeuDyn;
  V_rest : Arr Q;
  V_reset : Arr Q;
  V_th_inf : Arr Q;
  V_th_reset : Arr Q;
  R : Arr Q;
  tau : Arr Q;
  a : Arr Q;
  b : Arr Q;
  k1 : Arr Q;
  k2 : Arr Q;
  R1 : Arr Q;
  R2 : Arr Q;
  A1 : Arr Q;
  A2 : Arr Q;
  V_initializer : Initializer;
  I1_initializer : Initializer;
  I2_initializer : Initializer;
  Vth_initializer : Initializer;
  method : Odeint (Arr Q * Arr Q * Arr Q * Arr Q)
}.

Record state := mkState {
  V : Arr Q;
  I1 : Arr Q;
  I2 : Arr Q;
  V_th : Arr Q;     (* the dynamic threshold *)
  spike : Spk
}.

Definition dI1 (self : t) (I1 : Arr Q) (t : Q) : Arr Q := neg (k1 self) .* I1.

Definition dI2 (self : t) (I2 : Arr Q) (t : Q) : Arr Q := neg (k2 self) .* I2.

Definition dVth (self : t) (V_th : Arr Q) (t : Q) (V : Arr Q) : Arr Q :=
  a self .* (V .- V_rest self) .- b self .* (V_th .- V_th_inf self).

Definition dV (self : t) (V : Arr Q) (t : Q) (I1 I2 : Arr Q) (I : Arr Q) : Arr Q :=
  let I := sum_cur_inputs (base self) V I in
  (neg (V .- V_rest self) .+ R self .* (I .+ I1 .+ I2)) ./ tau self.

(** [JointEq(self.dI1, self.dI2, self.dVth, self.dV)] over [(I1, I2, V_th, V)] *)
Definition derivative (self : t) (s : Arr Q * Arr Q * Arr Q * Arr Q) (t : Q) (I : Arr Q)
    : Arr Q * Arr Q * Arr Q * Arr Q :=
  let '(I1, I2, V_th, V) := s in
  (dI1 self I1 t, dI2 self I2 t, dVth self V_th t V, dV self V t I1 I2 I).

Definition integral (self : t) (I1 I2 V_th V : Arr Q) (t : Q) (x : Arr Q) (dt : Q)
    : Arr Q * Arr Q * Arr Q * Arr Q :=
  method self (derivative self) (I1, I2, V_th, V) t x dt.

Definition reset_state (self : t) (st : state) (batch_size : option nat) : state :=
  {| V := init_variable (base self) (V_initializer self) batch_size;
     I1 := init_variable (base self) (I1_initializer self) batch_size;
     I2 := init_variable (base self) (I2_initializer self) batch_size;
     V_th := init_variable (base self) (Vth_initializer self) batch_size;
     spike := init_spike (base self) batch_size |}.

Definition update (self : t) (sh : Share) (st : state) (x : option (Arr Q))
    : state * option Spk :=
  let t := share_t sh in
  let dt := share_dt sh in
  let x := input_or_zero x in
  let '(I1, I2, V_th, V) := integral self (I1 st) (I2 st) (V_th st) (V st) t x dt in
  if isTraining (mode (base self)) then
    let spike := surrogate (base self) (V .- GifLTC.V_th st) in
    let spike := detach (base self) spike in
    let V := V .+ (V_reset self .- V) .* spike in
    let I1 := I1 .+ spike .* (R1 self .* I1 .+ A1 self .- I1) in
    let I2 := I2 .+ spike .* (R2 self .* I2 .+ A2 self .- I2) in
    let reset_th := surrogate (base self) (V_th_reset self .- V_th) .* spike in
    let V_th := V_th .+ reset_th .* (V_th_reset self .- V_th) in
    ({| V := V; I1 := I1; I2 := I2; V_th := V_th; spike := SpkFloat spike |},
     Some (SpkFloat spike))
  else
    let spike := GifLTC.V_th st .<= V in
    let V := bm_where spike (V_reset self) V in
    let I1 := bm_where spike (R1 self .* I1 .+ A1 self) I1 in
    let I2 := bm_where spike (R2 self .* I2 .+ A2 self) I2 in
    let V_th := bm_where spike (bm_maximum (V_th_reset self) V_th) V_th in
    ({| V := V; I1 := I1; I2 := I2; V_th := V_th; spike := SpkBool spike |},
     Some (SpkBool spike)).
End GifLTC.

Module GifRefLTC.
Record t := mk {
  gif : GifLTC.t;
  tau_ref : Arr Q;
  ref_var : bool
}.

Record state := mkState {
  V : Arr Q;
  I1 : Arr Q;
  I2 : Arr Q;
  V_th : Arr Q;
  spike : Spk;
  t_last_spike : Arr Q;
  refractory : option (Arr bool)
}.

Definition base (self : t) : GradNeuDyn := GifLTC.base (gif self).
Definition V_reset (self : t) : Arr Q := GifLTC.V_reset (gif self).
Definition V_th_reset (self : t) : Arr Q := GifLTC.V_th_reset (gif self).
Definition R1 (self : t) : Arr Q := GifLTC.R1 (gif self).
Definition R2 (self : t) : Arr Q := GifLTC.R2 (gif self).
Definition A1 (self : t) : Arr Q := GifLTC.A1 (gif self).
Definition A2 (self : t) : Arr Q := GifLTC.A2 (gif self).

Definition integral (self : t)
    : Arr Q -> Arr Q -> Arr Q -> Arr Q -> Q -> Arr Q -> Q -> Arr Q * Arr Q * Arr Q * Arr Q :=
  GifLTC.integral (gif self).

Definition gate (self : t) (sh : Share) (st : state) : Arr bool :=
  (Scal (share_t sh) .- t_last_spike st) .<= tau_ref self.

Definition update (self : t) (sh : Share) (st : state) (x : option (Arr Q))
    : state * option Spk :=
  let t := share_t sh in
  let dt := share_dt sh in
  let x := input_or_zero x in
  let '(I1, I2, V_th, V) := integral self (I1 st) (I2 st) (V_th st) (V st) t x dt in
  let refractory_ := (Scal t .- t_last_spike st) .<= tau_ref self in
  let refractory_ :=
    if isTraining (mode (base self)) then stop_gradient refractory_ else refractory_ in
  let V := bm_where refractory_ (GifRefLTC.V st) V in
  if isTraining (mode (base self)) then
    let spike := surrogate (base self) (V .- GifRefLTC.V_th st) in
    let spike_no_grad := detach (base self) spike in
    let V := V .+ (V_reset self .- V) .* spike in
    let I1 := I1 .+ spike .* (R1 self .* I1 .+ A1 self .- I1) in
    let I2 := I2 .+ spike .* (R2 self .* I2 .+ A2 self .- I2) in
    let reset_th := surrogate (base self) (V_th_reset self .- V_th) .* spike in
    let V_th := V_th .+ reset_th .* (V_th_reset self .- V_th) in
    let spike_ := spike_no_grad .> Scal 0 in
    let refr :=
      if ref_var self then Some (stop_gradient (bm_logical_or refractory_ spike_))
      else refractory st in
    let t_last_spike := stop_gradient (bm_where spike_ (Scal t) (t_last_spike st)) in
    ({| V := V; I1 := I1; I2 := I2; V_th := V_th; spike := SpkFloat spike;
        t_last_spike := t_last_spike; refractory := refr |},
     Some (SpkFloat spike))
  else
    let spike := V .>= GifRefLTC.V_th st in
    let V := bm_where spike (V_reset self) V in
    let I1 := bm_where spike (R1 self .* I1 .+ A1 self) I1 in
    let I2 := bm_where spike (R2 self .* I2 .+ A2 self) I2 in
    let V_th := bm_where spike (bm_maximum (V_th_reset self) V_th) V_th in
    let refr :=
      if ref_var self then Some (bm_logical_or refractory_ spike)
      else refractory st in
    let t_last_spike := bm_where spike (Scal t) (t_last_spike st) in
    ({| V := V; I1 := I1; I2 := I2; V_th := V_th; spike := SpkBool spike;
        t_last_spike := t_last_spike; refractory := refr |},
     Some (SpkBool spike)).
End GifRefLTC.

(** ** IzhikevichLTC and IzhikevichRefLTC *)

Module IzhikevichLTC.
Record t := mk {
  base : GradNeuDyn;
  V_th : Arr Q;
  a : Arr Q;
  b : Arr Q;
  c : Arr Q;
  d : Arr Q;
  R : Arr Q;
  tau : Arr Q;
  method : Odeint (Arr Q * Arr Q)
}.

Record state := mkState { V : Arr Q; u : Arr Q; spike : Spk }.

Definition dV (self : t) (V : Arr Q) (t : Q) (u : Arr Q) (I : Arr Q) : Arr Q :=
  let I := sum_cur_inputs (base self) V I in
  Scal 0.04 .* V .* V .+ Scal 5 .* V .+ Scal 140 .- u .+ I.

Definition du (self : t) (u : Arr Q) (t : Q) (V : Arr Q) : Arr Q :=
  a self .* (b self .* V .- u).

Definition derivative (self : t) (s : Arr Q * Arr Q) (t : Q) (I : Arr Q)
    : Arr Q * Arr Q :=
  (dV self (fst s) t (snd s) I, du self (snd s) t (fst s)).

Definition integral (self : t) (V u : Arr Q) (t : Q) (x : Arr Q) (dt : Q)
    : Arr Q * Arr Q :=
  method self (derivative self) (V, u) t x dt.

Definition update (self : t) (sh : Share) (st : state) (x : option (Arr Q))
    : state * option Spk :=
  let t := share_t sh in
  let dt := share_dt sh in
  let x := input_or_zero x in
  let '(V, u) := integral self (V st) (u st) t x dt in
  if isTraining (mode (base self)) then
    let spike := surrogate (base self) (V .- V_th self) in
    let spike := detach (base self) spike in
    let V := V .+ spike .* (c self .- V_th self) in
    let u := u .+ spike .* d self in
    ({| V := V; u := u; spike := SpkFloat spike |}, Some (SpkFloat spike))
  else
    let spike := V .>= V_th self in
    let V := bm_where spike (c self) V in
    let u := bm_where spike (u .+ d self) u in
    ({| V := V; u := u; spike := SpkBool spike |}, Some (SpkBool spike)).
End IzhikevichLTC.

Module IzhikevichRefLTC.
Record t := mk {
  izh : IzhikevichLTC.t;
  tau_ref : Arr Q;
  ref_var : bool
}.

Record state := mkState {
  V : Arr Q;
  u : Arr Q;
  spike : Spk;
  t_last_spike : Arr Q;
  refractory : option (Arr bool)
}.

Definition base (self : t) : GradNeuDyn := IzhikevichLTC.base (izh self).
Definition V_th (self : t) : Arr Q := IzhikevichLTC.V_th (izh self).
Definition c (self : t) : Arr Q := IzhikevichLTC.c (izh self).
Definition d (self : t) : Arr Q := IzhikevichLTC.d (izh self).

Definition integral (self : t) : Arr Q -> Arr Q -> Q -> Arr Q -> Q -> Arr Q * Arr Q :=
  IzhikevichLTC.integral (izh self).

Definition gate (self : t) (sh : Share) (st : state) : Arr bool :=
  (Scal (share_t sh) .- t_last_spike st) .<= tau_ref self.

Definition update (self : t) (sh : Share) (st : state) (x : option (Arr Q))
    : state * option Spk :=
  let t := share_t sh in
  let dt := share_dt sh in
  let x := input_or_zero x in
  let '(V, u) := integral self (V st) (u st) t x dt in
  let refractory_ := (Scal t .- t_last_spike st) .<= tau_ref self in
  let refractory_ :=
    if isTraining (mode (base self)) then stop_gradient refractory_ else refractory_ in
  let V := bm_where refractory_ (IzhikevichRefLTC.V st) V in
  if isTraining (mode (base self)) then
    let spike := surrogate (base self) (V .- V_th self) in
    let spike_no_grad := detach (base self) spike in
    let V := V .+ spike .* (c self .- V_th self) in
    let u := u .+ spike .* d self in
    let spike_ := spike_no_grad .> Scal 0 in
    let refr :=
      if ref_var self then Some (stop_gradient (bm_logical_or refractory_ spike_))
      else refractory st in
    let t_last_spike := stop_gradient (bm_where spike_ (Scal t) (t_last_spike st)) in
    ({| V := V; u := u; spike := SpkFloat spike;
        t_last_spike := t_last_spike; refractory := refr |},
     Some (SpkFloat spike))
  else
    let spike := V .>= V_th self in
    let V := bm_where spike (c self) V in
    let u := bm_where spike (u .+ d self) u in
    let refr :=
      if ref_var self then Some (bm_logical_or refractory_ spike)
      else refractory st in
    let t_last_spike := bm_where spike (Scal t) (t_last_spike st) in
    ({| V := V; u := u; spike := SpkBool spike;
        t_last_spike := t_last_spike; refractory := refr |},
     Some (SpkBool spike)).
End IzhikevichRefLTC.

(** ** What one neuron sees of the spike output

    [update] returned the tensor it committed to [self.spike], and the
    element of neuron [i] is [b] (hard spike) or [q] (surrogate value). *)

Definition spike_bool_at (ret : option Spk) (committed : Spk) (i : nat) (b : bool) : Prop :=
  exists sp, ret = Some (SpkBool sp) /\ committed = SpkBool sp /\ get sp i = Some b.

Definition spike_float_at (ret : option Spk) (committed : Spk) (i : nat) (q : Q) : Prop :=
  exists sp, ret = Some (SpkFloat sp) /\ committed = SpkFloat sp /\ get sp i = Some q.

(** The refractory flag of neuron [i], when the variable exists. *)
Definition flag_at (refractory : option (Arr bool)) (i : nat) (b : bool) : Prop :=
  exists f, refractory = Some f /\ get f i = Some b.

(** ** Concrete integration methods and model instances used in examples *)

(** Explicit Euler, the fixed-step scheme [method='euler']. *)
Definition euler : Odeint (Arr Q) :=
  fun f V t x dt => V .+ Scal dt .* f V t x.

Definition euler2 : Odeint (Arr Q * Arr Q) :=
  fun f s t x dt =>
    let d := f s t x in
    (fst s .+ Scal dt .* fst d, snd s .+ Scal dt .* snd d).

Definition euler4 : Odeint (Arr Q * Arr Q * Arr Q * Arr Q) :=
  fun f s t x dt =>
    let '(d1, d2, d3, d4) := f s t x in
    let '(s1, s2, s3, s4) := s in
    (s1 .+ Scal dt .* d1, s2 .+ Scal dt .* d2,
     s3 .+ Scal dt .* d3, s4 .+ Scal dt .* d4).

(** The forward pass of a step-shaped surrogate, and a graded one. *)
Definition heaviside (x : Q) : Q := if Qle_bool 0 x then 1 else 0.
Definition hard_sigmoid_at : Q -> Q := at_scalar hard_sigmoid.

Definition demo_base (m : Mode) (f : Q -> Q) (ty : DType) : GradNeuDyn :=
  {| num := 2; mode := m; spk_fun := f; spk_type := ty;
     detach_spk := false; cur_inputs := [] |}.

(** [LifLTC(2)] with the constructor's default parameters. *)
Definition demo_lif_init (m : Mode) (f : Q -> Q) (ty : DType) (init : Initializer)
    : LifLTC.t :=
  {| LifLTC.base := demo_base m f ty;
     LifLTC.V_rest := Scal 0; LifLTC.V_reset := Scal (-5); LifLTC.V_th := Scal 20;
     LifLTC.R := Scal 1; LifLTC.tau := Scal 10;
     LifLTC.V_initializer := init; LifLTC.method := euler |}.

Definition demo_lif (m : Mode) (f : Q -> Q) (ty : DType) : LifLTC.t :=
  demo_lif_init m f ty ZeroInit.

(** [LifRefLTC(2, tau_ref=..., ref_var=..., V_initializer=...)] *)
Definition demo_lifref (m : Mode) (f : Q -> Q) (ty : DType) (init : Initializer)
    (tau_ref : Q) (ref_var : bool) : LifRefLTC.t :=
  {| LifRefLTC.lif := demo_lif_init m f ty init;
     LifRefLTC.tau_ref := Scal tau_ref;
     LifRefLTC.ref_var := ref_var |}.

Definition demo_tick (t : Q) : Share := {| share_t := t; share_dt := 1 |}.

(** A rational stand-in for the exponential, used only to evaluate
    examples; no property depends on it. *)
Definition demo_exp (x : Q) : Q := 1 + x.

(** [AdExIFLTC(2)], [AdQuaIFLTC(2)], [GifLTC(2, Vth_initializer=...)] and
    [IzhikevichLTC(2)] with the constructors' default parameters. *)
Definition demo_adex (m : Mode) (f : Q -> Q) (ty : DType) : AdExIFLTC.t :=
  {| AdExIFLTC.base := demo_base m f ty;
     AdExIFLTC.V_rest := Scal (-65); AdExIFLTC.V_reset := Scal (-68);
     AdExIFLTC.V_th := Scal (-30); AdExIFLTC.V_T := Scal (-59.9);
     AdExIFLTC.delta_T := Scal 3.48; AdExIFLTC.a := Scal 1; AdExIFLTC.b := Scal 1;
     AdExIFLTC.R := Scal 1; AdExIFLTC.tau := Scal 10; AdExIFLTC.tau_w := Scal 30;
     AdExIFLTC.V_initializer := ZeroInit; AdExIFLTC.w_initializer := ZeroInit;
     AdExIFLTC.bm_exp := demo_exp; AdExIFLTC.method := euler2 |}.

Definition demo_adquaif (m : Mode) (f : Q -> Q) (ty : DType) : AdQuaIFLTC.t :=
  {| AdQuaIFLTC.base := demo_base m f ty;
     AdQuaIFLTC.V_rest := Scal (-65); AdQuaIFLTC.V_reset := Scal (-68);
     AdQuaIFLTC.V_th := Scal (-30); AdQuaIFLTC.V_c := Scal (-50);
     AdQuaIFLTC.a := Scal 1; AdQuaIFLTC.b := Scal 0.1; AdQuaIFLTC.c := Scal 0.07;
     AdQuaIFLTC.tau := Scal 10; AdQuaIFLTC.tau_w := Scal 10;
     AdQuaIFLTC.V_initializer := ZeroInit; AdQuaIFLTC.w_initializer := ZeroInit;
     AdQuaIFLTC.method := euler2 |}.

Definition demo_gif (m : Mode) (f : Q -> Q) (ty : DType) (vth_init : Initializer)
    : GifLTC.t :=
  {| GifLTC.base := demo_base m f ty;
     GifLTC.V_rest := Scal (-70); GifLTC.V_reset := Scal (-70);
     GifLTC.V_th_inf := Scal (-50); GifLTC.V_th_reset := Scal (-60);
     GifLTC.R := Scal 20; GifLTC.tau := Scal 20;
     GifLTC.a := Scal 0; GifLTC.b := Scal 0.01;
     GifLTC.k1 := Scal 0.2; GifLTC.k2 := Scal 0.02;
     GifLTC.R1 := Scal 0; GifLTC.R2 := Scal 1;
     GifLTC.A1 := Scal 0; GifLTC.A2 := Scal 0;
     GifLTC.V_initializer := OneInit (-70);
     GifLTC.I1_initializer := ZeroInit; GifLTC.I2_initializer := ZeroInit;
     GifLTC.Vth_initializer := vth_init;
     GifLTC.method := euler4 |}.

Definition demo_izh (m : Mode) (f : Q -> Q) (ty : DType) : IzhikevichLTC.t :=
  {| IzhikevichLTC.base := demo_base m f ty;
     IzhikevichLTC.V_th := Scal 30;
     IzhikevichLTC.a := Scal 0.02; IzhikevichLTC.b := Scal 0.20;
     IzhikevichLTC.c := Scal (-65); IzhikevichLTC.d := Scal 8;
     IzhikevichLTC.R := Scal 1; IzhikevichLTC.tau := Scal 10;
     IzhikevichLTC.method := euler2 |}.

Definition demo_izhref (m : Mode) (f : Q -> Q) (ty : DType) (tau_ref : Q)
    (ref_var : bool) : IzhikevichRefLTC.t :=
  {| IzhikevichRefLTC.izh := demo_izh m f ty;
     IzhikevichRefLTC.tau_ref := Scal tau_ref;
     IzhikevichRefLTC.ref_var := ref_var |}.

From Stdlib Require Import Qpower Qabs.

(** ** IFLTC and IF: the leaky integrator without spiking *)

Module IFLTC.
Record t := mk {
  base : GradNeuDyn;
  V_rest : Arr Q;
  R : Arr Q;
  tau : Arr Q;
  V_initializer : Initializer;
  method : Odeint (Arr Q)
}.

Record state := mkState { V : Arr Q }.

Definition derivative (self : t) (V : Arr Q) (t : Q) (I : Arr Q) : Arr Q :=
  let I := sum_cur_inputs (base self) V I in
  (neg V .+ V_rest self .+ R self .* I) ./ tau self.

Definition integral (self : t) : Arr Q -> Q -> Arr Q -> Q -> Arr Q :=
  method self (derivative self).

Definition reset_state (self : t) (st : state) (batch_size : option nat) : state :=
  {| V := init_variable (base self) (V_initializer self) batch_size |}.

(** [update] returns the committed voltage. *)
Definition update_with (integral : Arr Q -> Q -> Arr Q -> Q -> Arr Q)
    (self : t) (sh : Share) (st : state) (x : option (Arr Q))
    : state * option (Arr Q) :=
  let t := share_t sh in
  let dt := share_dt sh in
  let x := input_or_zero x in
  let V := integral (V st) t x dt in
  ({| V := V |}, Some V).

Definition update (self : t) := update_with (integral self) self.

Definition return_info (st : state) : Arr Q := V st.

Definition run (self : t) (ticks : list (Share * option (Arr Q))) (st : state) : state :=
  foldl (fun st tick => fst (update self (fst tick) st (snd tick))) st ticks.
End IFLTC.

Module IF.
Import IFLTC.

Definition derivative (self : t) (V : Arr Q) (t : Q) (I : Arr Q) : Arr Q :=
  (neg V .+ V_rest self .+ R self .* I) ./ tau self.

Definition integral (self : t) : Arr Q -> Q -> Arr Q -> Q -> Arr Q :=
  method self (derivative self).

Definition update (self : t) (sh : Share) (st : state) (x : option (Arr Q))
    : state * option (Arr Q) :=
  let x := input_or_zero x in
  let x := sum_cur_inputs (base self) (V st) x in
  let '(st', _) := IFLTC.update_with (integral self) self sh st (Some x) in
  (st', None).
End IF.

(** ** Schemes that evaluate the derivative once

    An integration method evaluates the derivative only at the current
    state, time and input when its result is determined by that one
    value. *)

Definition single_evaluation {S : Type} (m : Odeint S) : Prop :=
  forall (f g : S -> Q -> Arr Q -> S) (s : S) (t : Q) (x x' : Arr Q) (dt : Q),
    f s t x = g s t x' -> m f s t x dt = m g s t x' dt.

(** The explicit midpoint rule, a two-stage scheme. *)
Definition midpoint : Odeint (Arr Q) :=
  fun f V t x dt =>
    let k1 := f V t x in
    let k2 := f (V .+ Scal (dt / 2) .* k1) (t + dt / 2) x in
    V .+ Scal dt .* k2.

(** ** Shapes *)

(** [x] is a tensor of exactly [n] elements. *)
Definition has_size {A} (n : nat) (x : Arr A) : Prop :=
  match x with
  | Scal _ => False
  | Vec l => length l = n
  end.

(** [x] broadcasts against a tensor of [n] elements. *)
Definition broadcastable {A} (n : nat) (x : Arr A) : Prop :=
  match x with
  | Scal _ => True
  | Vec l => length l = n
  end.

Definition spk_has_size (n : nat) (s : Spk) : Prop :=
  match s with
  | SpkBool b => has_size n b
  | SpkFloat q => has_size n q
  end.

(** [LifLTC(2)] with one registered current input, a conductance pulling
    the voltage towards 10, and a chosen integration method. *)
Definition demo_lif_syn (m : Mode) (f : Q -> Q) (ty : DType) (meth : Odeint (Arr Q))
    : LifLTC.t :=
  {| LifLTC.base :=
       mkGradNeuDyn 2 m f ty false
         [("syn"%string, fun V => Scal 0.5 .* (Scal 10 .- V))];
     LifLTC.V_rest := Scal 0; LifLTC.V_reset := Scal (-5); LifLTC.V_th := Scal 20;
     LifLTC.R := Scal 1; LifLTC.tau := Scal 10;
     LifLTC.V_initializer := ZeroInit; LifLTC.method := meth |}.


(** ** [IzhikevichLTC.reset_state] and its initializers

    [self._V_initializer] and [self._u_initializer]; the latter is [None]
    until the first reset replaces it by [OneInit(self.b * self.V)]. *)

Module IzhikevichInit.
(** [OneInit(value)] with a tensor value: [ones(shape) * value]. *)
Definition OneInit_tensor (value : Arr Q) : Initializer :=
  fun n =>
    match Vec (replicate n 1) .* value with
    | Vec l => l
    | Scal _ => []
    end.

Record initializers := mk {
  V_initializer : Initializer;
  u_initializer : option Initializer
}.

Definition reset_state (self : IzhikevichLTC.t) (ini : initializers)
    (st : IzhikevichLTC.state) (batch_size : option nat)
    : IzhikevichLTC.state * initializers :=
  let g := IzhikevichLTC.base self in
  let V := init_variable g (V_initializer ini) batch_size in
  let u_init :=
    match u_initializer ini with
    | None => OneInit_tensor (IzhikevichLTC.b self .* V)
    | Some f => f
    end in
  ({| IzhikevichLTC.V := V;
      IzhikevichLTC.u := init_variable g u_init batch_size;
      IzhikevichLTC.spike := init_spike g batch_size |},
   {| V_initializer := V_initializer ini; u_initializer := Some u_init |}).
End IzhikevichInit.

(** ** More of [brainpy/_src/math/activations.py] *)

Definition Qlt_bool (a b : Q) : bool := negb (Qle_bool b a).
Definition lt : Arr Q -> Arr Q -> Arr bool := map2 Qlt_bool.
Arguments lt : simpl never.
Infix ".<" := lt (at level 70, no associativity) : arr_scope.

Definition bm_abs : Arr Q -> Arr Q := amap Qabs.
Arguments bm_abs : simpl never.

Definition identity (x : Arr Q) : Arr Q := x.

Definition hard_tanh (x : Arr Q) : Arr Q :=
  bm_where (x .> Scal 1) (Scal 1) (bm_where (x .< Scal (-1)) (Scal (-1)) x).

Definition hard_silu (x : Arr Q) : Arr Q := x .* hard_sigmoid x.

Definition hard_swish : Arr Q -> Arr Q := hard_silu.

Definition leaky_relu (x : Arr Q) (negative_slope : Q) : Arr Q :=
  bm_where (x .>= Scal 0) x (Scal negative_slope .* x).


(** [None] stands for the [ValueError] raised on an axis out of bounds. *)
Definition _canonicalize_axis (axis num_dims : Z) : option Z :=
  if negb ((- num_dims <=? axis)%Z && (axis <? num_dims)%Z) then None
  else Some (if (axis <? 0)%Z then (axis + num_dims)%Z else axis).

(** One element of [jnp.asarray(lhs == rhs, dtype=dtype)]. *)
Definition hit (xi k : Z) : Q := if (xi =? k)%Z then 1 else 0.

(** [one_hot] on a rank-1 tensor of integer indices [x] and an integer
    [axis]: the result has rank 2, with the class dimension at the
    canonicalized [axis]. *)
Definition one_hot (x : list Z) (num_classes : nat) (axis : Z) : option (list (list Q)) :=
  output_pos_axis ← _canonicalize_axis axis (Z.of_nat (1 + 1));
  let classes := seqZ 0 (Z.of_nat num_classes) in
  Some (if (output_pos_axis =? 1)%Z
        then (fun xi => hit xi <$> classes) <$> x
        else (fun k => (fun xi => hit xi k) <$> x) <$> classes).


(** ** The conductance-based benchmark network of
    [examples/benchmark/COBA_brainpy.py]

    The neuron step function works on one neuron's state (mode
    ['scalar']); the state dictionary with its five fixed keys is a
    record, and the in-place assignments become a new record. *)

Module COBA.

Definition dt : Q := 0.05.
Definition taum : Q := 20.
Definition taue : Q := 5.
Definition taui : Q := 10.
Definition Vt : Q := -50.
Definition Vr : Q := -60.
Definition El : Q := -60.
Definition Erev_exc : Q := 0.
Definition Erev_inh : Q := -80.
Definition I : Q := 20.
Definition we : Q := 0.6.
Definition wi : Q := 6.7.
Definition ref : Q := 5.0.

Record NeuState : Type := mkNeuState {
  sp_t : Q;
  V : Q;
  spike : Q;
  ge : Q;
  gi : Q
}.

Definition neu_ST : NeuState := mkNeuState (-1e7) 0 0 0 0.

Definition neu_update (ST : NeuState) (_t : Q) : NeuState :=
  let ge0 := ge ST in
  let gi0 := gi ST in
  let ge1 := ge0 - ge0 / taue in
  let gi1 := gi0 - gi0 / taui in
  let ST := mkNeuState (sp_t ST) (V ST) (spike ST) ge1 gi1 in
  if Qgt_bool (_t - sp_t ST) ref then
    let V0 := V ST in
    let dvdt :=
      (ge1 * (Erev_exc - V0) + gi1 * (Erev_inh - V0) + (El - V0) + I) / taum in
    let ST := mkNeuState (sp_t ST) (V0 + dvdt * dt) 0 (ge ST) (gi ST) in
    if Qle_bool Vt V0
    then mkNeuState _t Vr 1 (ge ST) (gi ST)
    else ST
  else mkNeuState (sp_t ST) (V ST) 0 (ge ST) (gi ST).

(** The network calls the step function once per time point. *)
Definition neu_run (ST : NeuState) (ts : list Q) : NeuState :=
  foldl neu_update ST ts.

(** [post[key][i] += w]; [None] stands for the [IndexError] of an index
    out of range. *)
Definition add_at (post : list Q) (i : nat) (w : Q) : option (list Q) :=
  v ← post !! i; Some (<[i := v + w]> post).

(** [for i in post_ids: post[key][i] += w] *)
Fixpoint add_all (post_ids : list nat) (w : Q) (post : list Q) : option (list Q) :=
  match post_ids with
  | [] => Some post
  | i :: rest => post' ← add_at post i w; add_all rest w post'
  end.

(** The loop [for pre_id in range(len(pre2post))] shared by [update1]
    and [update2], from [pre_id] on. *)
Fixpoint syn_loop (w : Q) (pre_spike : list Q) (pre2post : list (list nat))
    (pre_id : nat) (post : list Q) : option (list Q) :=
  match pre2post with
  | [] => Some post
  | post_ids :: rest =>
      s ← pre_spike !! pre_id;
      post' ← (if Qgt_bool s 0 then add_all post_ids w post else Some post);
      syn_loop w pre_spike rest (S pre_id) post'
  end.

(** [update1] acts on [pre['spike']] and [post['ge']]. *)
Definition update1 (pre_spike post_ge : list Q) (pre2post : list (list nat))
    : option (list Q) :=
  syn_loop we pre_spike pre2post 0 post_ge.

(** [update2] acts on [pre['spike']] and [post['gi']]. *)
Definition update2 (pre_spike post_gi : list Q) (pre2post : list (list nat))
    : option (list Q) :=
  syn_loop wi pre_spike pre2post 0 post_gi.

(** Number of times [j] occurs in [post_ids]. *)
Definition occurrences (j : nat) (post_ids : list nat) : nat :=
  length (filter (fun i => i = j) post_ids).

(** Number of synaptic events arriving at [j]: occurrences of [j] in the
    targets of the presynaptic neurons with a positive spike entry, from
    [pre_id] on. *)
Fixpoint arrivals (pre_spike : list Q) (pre2post : list (list nat))
    (pre_id j : nat) : nat :=
  match pre2post with
  | [] => 0
  | post_ids :: rest =>
      ((match pre_spike !! pre_id with
        | Some s => if Qgt_bool s 0 then occurrences j post_ids else 0
        | None => 0
        end) + arrivals pre_spike rest (S pre_id) j)%nat
  end.

End COBA.

(** * Properties *)

(** ** Elementwise reading of the array operations *)

Lemma get_amap {A B} (f : A -> B) (x : Arr A) (i : nat) :
  get (amap f x) i = f <$> get x i.
Proof. destruct x; simpl; [done | apply list_lookup_fmap]. Qed.

Lemma get_map2 {A B C} (f : A -> B -> C) (x : Arr A) (y : Arr B) (i : nat) :
  get (map2 f x y) i = get x i ≫= fun a => get y i ≫= fun b => Some (f a b).
Proof.
  destruct x as [a|l], y as [b|k]; simpl;
    rewrite ?list_lookup_fmap, ?lookup_zip_with; try done;
    match goal with |- context [?l !! i] => destruct (l !! i) end; done.
Qed.

Lemma get_where {A} (c : Arr bool) (x y : Arr A) (i : nat) :
  get (bm_where c x y) i =
  get c i ≫= fun (b : bool) => get x i ≫= fun u => get y i ≫= fun v =>
  Some (if b then u else v).
Proof.
  unfold bm_where. rewrite !get_map2.
  destruct (get c i), (get x i), (get y i); done.
Qed.

Lemma detach_id (g : GradNeuDyn) (s : Arr Q) : detach g s = s.
Proof. unfold detach, stop_gradient. by destruct (detach_spk g). Qed.

Lemma gate_stop_gradient (m : Mode) (r : Arr bool) :
  (if isTraining m then stop_gradient r else r) = r.
Proof. by destruct (isTraining m). Qed.

(** Reduce [get] of a compound array expression at an index where the
    leaves are known. *)
Ltac arr_unfold :=
  unfold surrogate, add, sub, mul, div, neg, ge, le, gt,
    bm_maximum, bm_minimum, bm_logical_or, stop_gradient in *.

Ltac arr_get :=
  rewrite ?detach_id, ?gate_stop_gradient;
  arr_unfold;
  repeat (rewrite get_where || rewrite get_map2 || rewrite get_amap);
  repeat match goal with
         | H : get ?x ?i = Some _ |- context [get ?x ?i] => rewrite H
         end;
  simpl.

(** ** LifLTC *)

Section LifLTC_facts.
Import LifLTC.
Variable self : t.
Variable integ : Arr Q -> Q -> Arr Q -> Q -> Arr Q.
Variables (sh : Share) (st : state) (x : option (Arr Q)).

Let Vi := integ (V st) (share_t sh) (input_or_zero x) (share_dt sh).

Lemma LifLTC_infer_eq :
  isTraining (mode (base self)) = false ->
  update_with integ self sh st x =
  ({| V := bm_where (Vi .>= V_th self) (V_reset self) Vi;
      spike := SpkBool (Vi .>= V_th self) |},
   Some (SpkBool (Vi .>= V_th self))).
Proof. intros Hm. unfold update_with. by rewrite Hm. Qed.

Lemma LifLTC_train_eq :
  isTraining (mode (base self)) = true ->
  let s := surrogate (base self) (Vi .- V_th self) in
  update_with integ self sh st x =
  ({| V := Vi .+ (V_reset self .- Vi) .* s; spike := SpkFloat s |},
   Some (SpkFloat s)).
Proof. intros Hm. unfold update_with. rewrite Hm, detach_id. done. Qed.
End LifLTC_facts.

(** C1, at a concrete population: the simplified [Lif.update] commits the
    spike tensor [[True, False]] and the reset voltage, exactly as
    [LifLTC.update] does, yet evaluates to [None], whereas
    [LifLTC.update] returns the committed spike tensor. *)
Theorem Lif_update_drops_spike :
  let self := demo_lif NonBatchingMode heaviside DBool in
  let st := LifLTC.mkState (Vec [18; 0]) (SpkBool (Vec [false; false])) in
  let r := Lif.update self (demo_tick 0) st (Some (Vec [58; 0])) in
  let r' := LifLTC.update self (demo_tick 0) st (Some (Vec [58; 0])) in
  snd r = None /\
  LifLTC.spike (fst r) = SpkBool (Vec [true; false]) /\
  amap Qred (LifLTC.V (fst r)) = Vec [-5; 0] /\
  fst r' = fst r /\
  snd r' = Some (SpkBool (Vec [true; false])).
Proof. vm_compute. repeat split. Qed.

(** The simplified variants never return the spike tensor. *)
Lemma simplified_update_returns_None :
  (forall self sh st x, snd (Lif.update self sh st x) = None) /\
  (forall self sh st x, snd (LifRef.update self sh st x) = None) /\
  (forall self sh st x, snd (AdExIF.update self sh st x) = None).
Proof.
  repeat split; intros.
  - unfold Lif.update. by destruct (LifLTC.update_with _ _ _ _ _).
  - unfold LifRef.update. by destruct (LifRefLTC.update_with _ _ _ _ _).
  - unfold AdExIF.update. by destruct (AdExIFLTC.update_with _ _ _ _ _).
Qed.



(** C3. Training mode, one [LifLTC.update] step: the spike output is the
    surrogate function applied to the integrated voltage minus [V_th], and
    the committed voltage is the soft reset blend
    [V + (V_reset - V) * spike] of the integrated voltage [V]. *)
Theorem LifLTC_training_soft_reset (self : LifLTC.t) (sh : Share)
    (st : LifLTC.state) (x : option (Arr Q)) :
  isTraining (mode (LifLTC.base self)) = true ->
  let Vi := LifLTC.integral self (LifLTC.V st) (share_t sh) (input_or_zero x) (share_dt sh) in
  let s := amap (spk_fun (LifLTC.base self)) (Vi .- LifLTC.V_th self) in
  snd (LifLTC.update self sh st x) = Some (SpkFloat s) /\
  LifLTC.spike (fst (LifLTC.update self sh st x)) = SpkFloat s /\
  LifLTC.V (fst (LifLTC.update self sh st x)) = Vi .+ (LifLTC.V_reset self .- Vi) .* s /\
  forall i v th vr,
    get Vi i = Some v ->
    get (LifLTC.V_th self) i = Some th ->
    get (LifLTC.V_reset self) i = Some vr ->
    get s i = Some (spk_fun (LifLTC.base self) (v - th)) /\
    get (LifLTC.V (fst (LifLTC.update self sh st x))) i =
      Some (v + (vr - v) * spk_fun (LifLTC.base self) (v - th)).
Proof.
  intros Hm Vi s. unfold LifLTC.update.
  rewrite LifLTC_train_eq by done. simpl.
  repeat split; try done.
  - subst s. arr_get. done.
  - subst s. fold Vi. arr_get. done.
Qed.

Lemma LifLTC_training_soft_reset_witness :
  let self := demo_lif TrainingMode hard_sigmoid_at DFloat in
  let st := LifLTC.mkState (Vec [18; 0]) (SpkFloat (Vec [0; 0])) in
  let r := LifLTC.update self (demo_tick 0) st (Some (Vec [28; 0])) in
  exists s, snd r = Some (SpkFloat s) /\ LifLTC.spike (fst r) = SpkFloat s /\
    amap Qred s = Vec [(1 # 3); 0] /\
    amap Qred (LifLTC.V (fst r)) = Vec [11; 0].
Proof.
  intros self st r.
  destruct (LifLTC_training_soft_reset self (demo_tick 0) st (Some (Vec [28; 0])) eq_refl)
    as (Hr & Hs & HV & _).
  eexists. split; [exact Hr|]. split; [exact Hs|].
  subst r. rewrite HV. vm_compute. split; reflexivity.
Defined.

(** ** Resetting the state *)




(** ** LifRefLTC *)

Section LifRefLTC_facts.
Import LifRefLTC.
Variable self : t.
Variable integ : Arr Q -> Q -> Arr Q -> Q -> Arr Q.
Variables (sh : Share) (st : state) (x : option (Arr Q)).

Let Vi := integ (V st) (share_t sh) (input_or_zero x) (share_dt sh).
Let g := gate self sh st.
Let Vg := bm_where g (V st) Vi.

Lemma LifRefLTC_infer_eq :
  isTraining (mode (base self)) = false ->
  let s := Vg .>= V_th self in
  update_with integ self sh st x =
  ({| V := bm_where s (V_reset self) Vg;
      spike := SpkBool s;
      t_last_spike := bm_where s (Scal (share_t sh)) (t_last_spike st);
      refractory := if ref_var self then Some (bm_logical_or g s) else refractory st |},
   Some (SpkBool s)).
Proof. intros Hm. unfold update_with. by rewrite Hm. Qed.

Lemma LifRefLTC_train_eq :
  isTraining (mode (base self)) = true ->
  let s := surrogate (base self) (Vg .- V_th self) in
  let s_ := s .> Scal 0 in
  update_with integ self sh st x =
  ({| V := Vg .+ (V_reset self .- Vg) .* s;
      spike := SpkFloat s;
      t_last_spike := bm_where s_ (Scal (share_t sh)) (t_last_spike st);
      refractory := if ref_var self then Some (bm_logical_or g s_) else refractory st |},
   Some (SpkFloat s)).
Proof. intros Hm. unfold update_with. rewrite Hm, detach_id. done. Qed.

Variables (i : nat) (v l vi th vr tr : Q).
Hypothesis Hv : get (V st) i = Some v.
Hypothesis Hl : get (t_last_spike st) i = Some l.
Hypothesis Hvi : get Vi i = Some vi.
Hypothesis Hth : get (V_th self) i = Some th.
Hypothesis Hvr : get (V_reset self) i = Some vr.
Hypothesis Htr : get (tau_ref self) i = Some tr.

Let r := Qle_bool (share_t sh - l) tr.
Let vg := if r then v else vi.

Lemma LifRefLTC_gate_at : get g i = Some r.
Proof. subst g r. unfold gate. arr_get. done. Qed.

Lemma LifRefLTC_gated_at : get Vg i = Some vg.
Proof. pose proof LifRefLTC_gate_at as Hg. subst Vg. arr_get. done. Qed.

Lemma LifRefLTC_infer_at :
  isTraining (mode (base self)) = false ->
  let s := Qle_bool th vg in
  let st' := fst (update_with integ self sh st x) in
  (exists sp, snd (update_with integ self sh st x) = Some (SpkBool sp) /\
              spike st' = SpkBool sp /\ get sp i = Some s) /\
  get (V st') i = Some (if s then vr else vg) /\
  get (t_last_spike st') i = Some (if s then share_t sh else l) /\
  (ref_var self = true ->
   exists f, refractory st' = Some f /\ get f i = Some (r || s)).
Proof.
  intros Hm s st'. subst st'. rewrite LifRefLTC_infer_eq by done. simpl.
  pose proof LifRefLTC_gated_at as Hg. pose proof LifRefLTC_gate_at as Hr.
  fold Vg. repeat split.
  - eexists. split; [done|]. split; [done|]. arr_get. done.
  - arr_get. done.
  - arr_get. done.
  - intros ->. eexists. split; [done|]. fold g. arr_get. done.
Qed.

Lemma LifRefLTC_train_at :
  isTraining (mode (base self)) = true ->
  let s := spk_fun (base self) (vg - th) in
  let st' := fst (update_with integ self sh st x) in
  (exists sp, snd (update_with integ self sh st x) = Some (SpkFloat sp) /\
              spike st' = SpkFloat sp /\ get sp i = Some s) /\
  get (V st') i = Some (vg + (vr - vg) * s) /\
  get (t_last_spike st') i = Some (if Qgt_bool s 0 then share_t sh else l) /\
  (ref_var self = true ->
   exists f, refractory st' = Some f /\ get f i = Some (r || Qgt_bool s 0)).
Proof.
  intros Hm s st'. subst st'. rewrite LifRefLTC_train_eq by done. simpl.
  pose proof LifRefLTC_gated_at as Hg. pose proof LifRefLTC_gate_at as Hr.
  fold Vg. repeat split.
  - eexists. split; [done|]. split; [done|]. arr_get. done.
  - arr_get. done.
  - arr_get. done.
  - intros ->. eexists. split; [done|]. fold g. arr_get. done.
Qed.
End LifRefLTC_facts.

Lemma Qle_bool_false (a b : Q) : Qle_bool a b = false <-> b < a.
Proof.
  split; intros H.
  - apply Qnot_le_lt. intros Hle. apply Qle_bool_iff in Hle. congruence.
  - destruct (Qle_bool a b) eqn:E; [|done]. apply Qle_bool_iff in E. lra.
Qed.

Lemma Qgt_bool_iff (a b : Q) : Qgt_bool a b = true <-> b < a.
Proof.
  unfold Qgt_bool. rewrite negb_true_iff. apply Qle_bool_false.
Qed.

Lemma Qgt_bool_false (a b : Q) : Qgt_bool a b = false <-> a <= b.
Proof.
  unfold Qgt_bool. rewrite negb_false_iff. apply Qle_bool_iff.
Qed.




Lemma demo_lifref_integral_total m f ty init tr rv (i : nat) V t x dt :
  is_Some (get V i) -> is_Some (get x i) ->
  is_Some (get (LifRefLTC.integral (demo_lifref m f ty init tr rv) V t x dt) i).
Proof.
  intros [v Hv] [u Hu]. unfold LifRefLTC.integral. simpl.
  unfold euler, LifLTC.derivative, sum_cur_inputs. simpl.
  arr_get. eauto.
Qed.

Ltac qconc := vm_compute; first [reflexivity | discriminate].



(** C10. Training mode, one [LifRefLTC.update] step: the bookkeeping
    treats neuron [i] as having spiked exactly when its surrogate spike
    value is strictly positive; then [t_last_spike] becomes [t] and, when
    the [refractory] variable exists, the flag is raised; otherwise
    [t_last_spike] keeps its value and the flag is the gate condition. *)
Theorem LifRefLTC_training_bookkeeping (self : LifRefLTC.t) (sh : Share)
    (st : LifRefLTC.state) (x : option (Arr Q)) (i : nat) (v l vi th vr tr : Q) :
  isTraining (mode (LifRefLTC.base self)) = true ->
  get (LifRefLTC.V st) i = Some v ->
  get (LifRefLTC.t_last_spike st) i = Some l ->
  get (LifRefLTC.integral self (LifRefLTC.V st) (share_t sh)
         (input_or_zero x) (share_dt sh)) i = Some vi ->
  get (LifRefLTC.V_th self) i = Some th ->
  get (LifRefLTC.V_reset self) i = Some vr ->
  get (LifRefLTC.tau_ref self) i = Some tr ->
  let r := Qle_bool (share_t sh - l) tr in
  let vg := if r then v else vi in
  let s := spk_fun (LifRefLTC.base self) (vg - th) in
  let st' := fst (LifRefLTC.update self sh st x) in
  (exists sp, snd (LifRefLTC.update self sh st x) = Some (SpkFloat sp) /\
              LifRefLTC.spike st' = SpkFloat sp /\ get sp i = Some s) /\
  (0 < s ->
     get (LifRefLTC.t_last_spike st') i = Some (share_t sh) /\
     (LifRefLTC.ref_var self = true ->
      exists f, LifRefLTC.refractory st' = Some f /\ get f i = Some true)) /\
  (s <= 0 ->
     get (LifRefLTC.t_last_spike st') i = Some l /\
     (LifRefLTC.ref_var self = true ->
      exists f, LifRefLTC.refractory st' = Some f /\ get f i = Some r)).
Proof.
  intros Hm Hv Hl Hvi Hth Hvr Htr r vg s st'. subst st'.
  unfold LifRefLTC.update.
  destruct (LifRefLTC_train_at self (LifRefLTC.integral self) sh st x i
              v l vi th vr tr Hv Hl Hvi Hth Hvr Htr Hm) as (Hsp & _ & Hl' & Hf).
  fold r vg s in Hl', Hf, Hsp. fold r in Hf.
  split; [exact Hsp|]. split; intros Hs.
  - apply Qgt_bool_iff in Hs. rewrite Hs in Hl', Hf. split; [exact Hl'|].
    intros Hrv. destruct (Hf Hrv) as (f & Hf1 & Hf2). exists f.
    by rewrite orb_true_r in Hf2.
  - apply Qgt_bool_false in Hs. rewrite Hs in Hl', Hf. split; [exact Hl'|].
    intros Hrv. destruct (Hf Hrv) as (f & Hf1 & Hf2). exists f.
    by rewrite orb_false_r in Hf2.
Qed.

(** A graded spike of 1/3, produced below the threshold (integrated
    voltage 19 < 20), already sets [t_last_spike] and raises the flag. *)
Lemma LifRefLTC_training_bookkeeping_witness :
  let self := demo_lifref TrainingMode hard_sigmoid_at DFloat ZeroInit 5 true in
  let st := LifRefLTC.mkState (Vec [18; 0]) (SpkFloat (Vec [0; 0]))
                              (Vec [-1e7; -1e7]) (Some (Vec [false; false])) in
  let st' := fst (LifRefLTC.update self (demo_tick 3) st (Some (Vec [28; 0]))) in
  hard_sigmoid_at (19 - 20) == 1 # 3 /\
  get (LifRefLTC.t_last_spike st') 0 = Some 3 /\
  exists f, LifRefLTC.refractory st' = Some f /\ get f 0 = Some true.
Proof.
  intros self st st'.
  destruct (LifRefLTC_training_bookkeeping self (demo_tick 3) st (Some (Vec [28; 0])) 0
              18 (-1e7) (18 + 1 * ((- (18) + 0 + 1 * 28) / 10)) 20 (-5) 5
              eq_refl eq_refl eq_refl eq_refl eq_refl eq_refl eq_refl)
    as (_ & Hpos & _).
  destruct Hpos as [Hl Hf]; [qconc|].
  split; [qconc|]. split; [exact Hl|]. apply Hf. reflexivity.
Defined.

(** ** Adaptive models *)

Ltac spike_at := eexists; split; [reflexivity|]; split; [reflexivity|]; arr_get.

(** C6. One update step of an adaptive model, relative to the integrated
    (pre-reset) adaptation value [w]: in inference mode a spiking neuron
    commits [w + b] and a silent one commits [w]; in training mode the
    neuron commits [w + b * spike_value].  Stated for AdExIFLTC,
    AdQuaIFLTC and AdExIFRefLTC. *)
Theorem adaptation_jump :
  (forall (self : AdExIFLTC.t) sh st x Vi wi (i : nat) v wv th bv,
     AdExIFLTC.integral self (AdExIFLTC.V st) (AdExIFLTC.w st) (share_t sh)
       (input_or_zero x) (share_dt sh) = (Vi, wi) ->
     get Vi i = Some v -> get wi i = Some wv ->
     get (AdExIFLTC.V_th self) i = Some th ->
     get (AdExIFLTC.b self) i = Some bv ->
     let r := AdExIFLTC.update self sh st x in
     (isTraining (mode (AdExIFLTC.base self)) = false ->
        (th <= v -> spike_bool_at (snd r) (AdExIFLTC.spike (fst r)) i true /\
                    get (AdExIFLTC.w (fst r)) i = Some (wv + bv)) /\
        (v < th -> spike_bool_at (snd r) (AdExIFLTC.spike (fst r)) i false /\
                   get (AdExIFLTC.w (fst r)) i = Some wv)) /\
     (isTraining (mode (AdExIFLTC.base self)) = true ->
        let s := spk_fun (AdExIFLTC.base self) (v - th) in
        spike_float_at (snd r) (AdExIFLTC.spike (fst r)) i s /\
        get (AdExIFLTC.w (fst r)) i = Some (wv + bv * s))) /\
  (forall (self : AdQuaIFLTC.t) sh st x Vi wi (i : nat) v wv th bv,
     AdQuaIFLTC.integral self (AdQuaIFLTC.V st) (AdQuaIFLTC.w st) (share_t sh)
       (input_or_zero x) (share_dt sh) = (Vi, wi) ->
     get Vi i = Some v -> get wi i = Some wv ->
     get (AdQuaIFLTC.V_th self) i = Some th ->
     get (AdQuaIFLTC.b self) i = Some bv ->
     let r := AdQuaIFLTC.update self sh st x in
     (isTraining (mode (AdQuaIFLTC.base self)) = false ->
        (th <= v -> spike_bool_at (snd r) (AdQuaIFLTC.spike (fst r)) i true /\
                    get (AdQuaIFLTC.w (fst r)) i = Some (wv + bv)) /\
        (v < th -> spike_bool_at (snd r) (AdQuaIFLTC.spike (fst r)) i false /\
                   get (AdQuaIFLTC.w (fst r)) i = Some wv)) /\
     (isTraining (mode (AdQuaIFLTC.base self)) = true ->
        let s := spk_fun (AdQuaIFLTC.base self) (v - th) in
        spike_float_at (snd r) (AdQuaIFLTC.spike (fst r)) i s /\
        get (AdQuaIFLTC.w (fst r)) i = Some (wv + bv * s))) /\
  (forall (self : AdExIFRefLTC.t) sh st x Vi wi (i : nat) v0 l v wv th bv tr,
     AdExIFRefLTC.integral self (AdExIFRefLTC.V st) (AdExIFRefLTC.w st) (share_t sh)
       (input_or_zero x) (share_dt sh) = (Vi, wi) ->
     get (AdExIFRefLTC.V st) i = Some v0 ->
     get (AdExIFRefLTC.t_last_spike st) i = Some l ->
     get (AdExIFRefLTC.tau_ref self) i = Some tr ->
     get Vi i = Some v -> get wi i = Some wv ->
     get (AdExIFRefLTC.V_th self) i = Some th ->
     get (AdExIFRefLTC.b self) i = Some bv ->
     let vg := if Qle_bool (share_t sh - l) tr then v0 else v in
     let r := AdExIFRefLTC.update self sh st x in
     (isTraining (mode (AdExIFRefLTC.base self)) = false ->
        (th <= vg -> spike_bool_at (snd r) (AdExIFRefLTC.spike (fst r)) i true /\
                     get (AdExIFRefLTC.w (fst r)) i = Some (wv + bv)) /\
        (vg < th -> spike_bool_at (snd r) (AdExIFRefLTC.spike (fst r)) i false /\
                    get (AdExIFRefLTC.w (fst r)) i = Some wv)) /\
     (isTraining (mode (AdExIFRefLTC.base self)) = true ->
        let s := spk_fun (AdExIFRefLTC.base self) (vg - th) in
        spike_float_at (snd r) (AdExIFRefLTC.spike (fst r)) i s /\
        get (AdExIFRefLTC.w (fst r)) i = Some (wv + bv * s))).
Proof.
  split; [|split].
  - intros self sh st x Vi wi i v wv th bv Hint Hv Hw Hth Hb r. subst r.
    unfold AdExIFLTC.update, AdExIFLTC.update_with. rewrite Hint.
    split; intros Hm; rewrite Hm; simpl.
    + split; intros Hc;
        [apply Qle_bool_iff in Hc | apply Qle_bool_false in Hc];
        (split; [spike_at | arr_get]); by rewrite Hc.
    + split; [spike_at | arr_get]; done.
  - intros self sh st x Vi wi i v wv th bv Hint Hv Hw Hth Hb r. subst r.
    unfold AdQuaIFLTC.update. rewrite Hint.
    split; intros Hm; rewrite Hm; simpl.
    + split; intros Hc;
        [apply Qle_bool_iff in Hc | apply Qle_bool_false in Hc];
        (split; [spike_at | arr_get]); by rewrite Hc.
    + split; [spike_at | arr_get]; done.
  - intros self sh st x Vi wi i v0 l v wv th bv tr Hint Hv0 Hl Htr Hv Hw Hth Hb vg r.
    subst r. unfold AdExIFRefLTC.update. rewrite Hint.
    split; intros Hm; rewrite Hm; simpl.
    + split; intros Hc;
        [apply Qle_bool_iff in Hc | apply Qle_bool_false in Hc];
        (split; [spike_at | arr_get]); fold vg; by rewrite Hc.
    + split; [spike_at | arr_get]; done.
Qed.

(** [AdQuaIFLTC] at its default parameters ([b = 0.1]): neuron 0 crosses
    the threshold and its adaptation variable ends [b] above the
    integrated value. *)
Lemma adaptation_jump_witness :
  let self := demo_adquaif NonBatchingMode heaviside DBool in
  let st := AdQuaIFLTC.mkState (Vec [-31; -65]) (Vec [0; 0])
                               (SpkBool (Vec [false; false])) in
  let r := AdQuaIFLTC.update self (demo_tick 0) st None in
  spike_bool_at (snd r) (AdQuaIFLTC.spike (fst r)) 0 true /\
  exists wv,
    get (snd (AdQuaIFLTC.integral self (AdQuaIFLTC.V st) (AdQuaIFLTC.w st)
                0 (Scal 0) 1)) 0 = Some wv /\
    get (AdQuaIFLTC.w (fst r)) 0 = Some (wv + 0.1).
Proof.
  intros self st r.
  destruct adaptation_jump as (_ & H & _).
  pose proof (fun Vi wi => H self (demo_tick 0) st None Vi wi 0%nat) as H0.
  edestruct H0 as [Hinf _];
    [vm_compute; reflexivity ..|].
  destruct (Hinf eq_refl) as [[Hs Hw] _]; [qconc|].
  split; [exact Hs|]. eexists. split; [|exact Hw]. vm_compute. reflexivity.
Defined.

(** ** Spike times of the refractory variants *)

(** C5. One update step of a refractory variant: the spike/reset stage
    reads the gated voltage (the pre-step voltage of a refractory neuron,
    the integrated voltage otherwise) by the same rule in both cases, so a
    neuron whose refractoriness has just ended can spike at once; the
    committed [t_last_spike] is the current time [t] where a spike
    occurred in this step and the previous value elsewhere.  Stated for
    LifRefLTC, AdExIFRefLTC, IzhikevichRefLTC and GifRefLTC (whose
    threshold is the pre-step dynamic threshold). *)
Theorem refractory_spike_time :
  (forall (self : LifRefLTC.t) sh st x (i : nat) v0 l vi th tr,
     get (LifRefLTC.V st) i = Some v0 ->
     get (LifRefLTC.t_last_spike st) i = Some l ->
     get (LifRefLTC.integral self (LifRefLTC.V st) (share_t sh)
            (input_or_zero x) (share_dt sh)) i = Some vi ->
     get (LifRefLTC.V_th self) i = Some th ->
     get (LifRefLTC.tau_ref self) i = Some tr ->
     let vg := if Qle_bool (share_t sh - l) tr then v0 else vi in
     let r := LifRefLTC.update self sh st x in
     (isTraining (mode (LifRefLTC.base self)) = false ->
        spike_bool_at (snd r) (LifRefLTC.spike (fst r)) i (Qle_bool th vg) /\
        get (LifRefLTC.t_last_spike (fst r)) i =
          Some (if Qle_bool th vg then share_t sh else l)) /\
     (isTraining (mode (LifRefLTC.base self)) = true ->
        let s := spk_fun (LifRefLTC.base self) (vg - th) in
        spike_float_at (snd r) (LifRefLTC.spike (fst r)) i s /\
        get (LifRefLTC.t_last_spike (fst r)) i =
          Some (if Qgt_bool s 0 then share_t sh else l))) /\
  (forall (self : AdExIFRefLTC.t) sh st x Vi wi (i : nat) v0 l vi th tr,
     AdExIFRefLTC.integral self (AdExIFRefLTC.V st) (AdExIFRefLTC.w st) (share_t sh)
       (input_or_zero x) (share_dt sh) = (Vi, wi) ->
     get (AdExIFRefLTC.V st) i = Some v0 ->
     get (AdExIFRefLTC.t_last_spike st) i = Some l ->
     get Vi i = Some vi ->
     get (AdExIFRefLTC.V_th self) i = Some th ->
     get (AdExIFRefLTC.tau_ref self) i = Some tr ->
     let vg := if Qle_bool (share_t sh - l) tr then v0 else vi in
     let r := AdExIFRefLTC.update self sh st x in
     (isTraining (mode (AdExIFRefLTC.base self)) = false ->
        spike_bool_at (snd r) (AdExIFRefLTC.spike (fst r)) i (Qle_bool th vg) /\
        get (AdExIFRefLTC.t_last_spike (fst r)) i =
          Some (if Qle_bool th vg then share_t sh else l)) /\
     (isTraining (mode (AdExIFRefLTC.base self)) = true ->
        let s := spk_fun (AdExIFRefLTC.base self) (vg - th) in
        spike_float_at (snd r) (AdExIFRefLTC.spike (fst r)) i s /\
        get (AdExIFRefLTC.t_last_spike (fst r)) i =
          Some (if Qgt_bool s 0 then share_t sh else l))) /\
  (forall (self : IzhikevichRefLTC.t) sh st x Vi ui (i : nat) v0 l vi th tr,
     IzhikevichRefLTC.integral self (IzhikevichRefLTC.V st) (IzhikevichRefLTC.u st)
       (share_t sh) (input_or_zero x) (share_dt sh) = (Vi, ui) ->
     get (IzhikevichRefLTC.V st) i = Some v0 ->
     get (IzhikevichRefLTC.t_last_spike st) i = Some l ->
     get Vi i = Some vi ->
     get (IzhikevichRefLTC.V_th self) i = Some th ->
     get (IzhikevichRefLTC.tau_ref self) i = Some tr ->
     let vg := if Qle_bool (share_t sh - l) tr then v0 else vi in
     let r := IzhikevichRefLTC.update self sh st x in
     (isTraining (mode (IzhikevichRefLTC.base self)) = false ->
        spike_bool_at (snd r) (IzhikevichRefLTC.spike (fst r)) i (Qle_bool th vg) /\
        get (IzhikevichRefLTC.t_last_spike (fst r)) i =
          Some (if Qle_bool th vg then share_t sh else l)) /\
     (isTraining (mode (IzhikevichRefLTC.base self)) = true ->
        let s := spk_fun (IzhikevichRefLTC.base self) (vg - th) in
        spike_float_at (snd r) (IzhikevichRefLTC.spike (fst r)) i s /\
        get (IzhikevichRefLTC.t_last_spike (fst r)) i =
          Some (if Qgt_bool s 0 then share_t sh else l))) /\
  (forall (self : GifRefLTC.t) sh st x I1i I2i Vthi Vi (i : nat) v0 l vi th tr,
     GifRefLTC.integral self (GifRefLTC.I1 st) (GifRefLTC.I2 st) (GifRefLTC.V_th st)
       (GifRefLTC.V st) (share_t sh) (input_or_zero x) (share_dt sh)
       = (I1i, I2i, Vthi, Vi) ->
     get (GifRefLTC.V st) i = Some v0 ->
     get (GifRefLTC.t_last_spike st) i = Some l ->
     get Vi i = Some vi ->
     get (GifRefLTC.V_th st) i = Some th ->
     get (GifRefLTC.tau_ref self) i = Some tr ->
     let vg := if Qle_bool (share_t sh - l) tr then v0 else vi in
     let r := GifRefLTC.update self sh st x in
     (isTraining (mode (GifRefLTC.base self)) = false ->
        spike_bool_at (snd r) (GifRefLTC.spike (fst r)) i (Qle_bool th vg) /\
        get (GifRefLTC.t_last_spike (fst r)) i =
          Some (if Qle_bool th vg then share_t sh else l)) /\
     (isTraining (mode (GifRefLTC.base self)) = true ->
        let s := spk_fun (GifRefLTC.base self) (vg - th) in
        spike_float_at (snd r) (GifRefLTC.spike (fst r)) i s /\
        get (GifRefLTC.t_last_spike (fst r)) i =
          Some (if Qgt_bool s 0 then share_t sh else l))).
Proof.
  split; [|split; [|split]].
  - intros self sh st x i v0 l vi th tr Hv0 Hl Hvi Hth Htr vg r. subst r.
    unfold LifRefLTC.update, LifRefLTC.update_with.
    split; intros Hm; rewrite Hm; simpl; (split; [spike_at | arr_get]); done.
  - intros self sh st x Vi wi i v0 l vi th tr Hint Hv0 Hl Hvi Hth Htr vg r. subst r.
    unfold AdExIFRefLTC.update. rewrite Hint.
    split; intros Hm; rewrite Hm; simpl; (split; [spike_at | arr_get]); done.
  - intros self sh st x Vi ui i v0 l vi th tr Hint Hv0 Hl Hvi Hth Htr vg r. subst r.
    unfold IzhikevichRefLTC.update. rewrite Hint.
    split; intros Hm; rewrite Hm; simpl; (split; [spike_at | arr_get]); done.
  - intros self sh st x I1i I2i Vthi Vi i v0 l vi th tr Hint Hv0 Hl Hvi Hth Htr vg r.
    subst r. unfold GifRefLTC.update. rewrite Hint.
    split; intros Hm; rewrite Hm; simpl; (split; [spike_at | arr_get]); done.
Qed.

(** With [tau_ref = 5] and a last spike at [t = 0], the step at [t = 6]
    is the first one outside the refractory window; the neuron crosses
    the threshold in that very step and [t_last_spike] becomes 6. *)
Lemma refractory_spike_time_witness :
  let self := demo_lifref NonBatchingMode heaviside DBool ZeroInit 5 false in
  let st := LifRefLTC.mkState (Vec [18; 0]) (SpkBool (Vec [false; false]))
                              (Vec [0; -1e7]) None in
  let r := LifRefLTC.update self (demo_tick 6) st (Some (Vec [58; 0])) in
  spike_bool_at (snd r) (LifRefLTC.spike (fst r)) 0 true /\
  get (LifRefLTC.t_last_spike (fst r)) 0 = Some 6 /\
  get (LifRefLTC.t_last_spike (fst r)) 1 = Some (-1e7).
Proof.
  intros self st r.
  destruct refractory_spike_time as (H & _).
  pose proof (fun i => H self (demo_tick 6) st (Some (Vec [58; 0])) i) as H0.
  edestruct (H0 0%nat) as [[Hs Hl] _]; [vm_compute; reflexivity ..|].
  edestruct (H0 1%nat) as [[_ Hl1] _]; [vm_compute; reflexivity ..|].
  split; [exact Hs|]. split; [exact Hl | exact Hl1].
Defined.

(** ** The dynamic threshold of the Gif family *)

Lemma soft_max_blend (vt vtr k s : Q) :
  s == 1 -> k == (if Qle_bool vt vtr then 1 else 0) ->
  vt + k * s * (vtr - vt) == Qmax vtr vt.
Proof.
  intros Hs Hk. destruct (Qle_bool vt vtr) eqn:E.
  - apply Qle_bool_iff in E. rewrite (Q.max_l vtr vt E), Hs, Hk. ring.
  - apply Qle_bool_false in E.
    rewrite (Q.max_r vtr vt) by (by apply Qlt_le_weak). rewrite Hs, Hk. ring.
Qed.

(** C7, as amended. In inference mode a spiking Gif neuron commits the
    maximum of the integrated threshold and [V_th_reset], which is never
    below [V_th_reset], and a silent one commits the integrated
    threshold.  In training mode the committed threshold is the soft
    blend [V_th + spk_fun(V_th_reset - V_th) * spike * (V_th_reset - V_th)];
    it equals that maximum when the spike value is 1 and the surrogate of
    [V_th_reset - V_th] is the 0/1 step, and the integrated threshold when
    the spike value is 0.  Stated for GifLTC and GifRefLTC. *)
Theorem Gif_threshold_reset :
  (forall (self : GifLTC.t) sh st x I1i I2i Vthi Vi (i : nat) v thp vt vtr,
     GifLTC.integral self (GifLTC.I1 st) (GifLTC.I2 st) (GifLTC.V_th st)
       (GifLTC.V st) (share_t sh) (input_or_zero x) (share_dt sh)
       = (I1i, I2i, Vthi, Vi) ->
     get Vi i = Some v ->
     get (GifLTC.V_th st) i = Some thp ->
     get Vthi i = Some vt ->
     get (GifLTC.V_th_reset self) i = Some vtr ->
     let r := GifLTC.update self sh st x in
     (isTraining (mode (GifLTC.base self)) = false ->
        (thp <= v ->
           spike_bool_at (snd r) (GifLTC.spike (fst r)) i true /\
           get (GifLTC.V_th (fst r)) i = Some (Qmax vtr vt) /\
           vtr <= Qmax vtr vt) /\
        (v < thp ->
           spike_bool_at (snd r) (GifLTC.spike (fst r)) i false /\
           get (GifLTC.V_th (fst r)) i = Some vt)) /\
     (isTraining (mode (GifLTC.base self)) = true ->
        let s := spk_fun (GifLTC.base self) (v - thp) in
        let k := spk_fun (GifLTC.base self) (vtr - vt) in
        spike_float_at (snd r) (GifLTC.spike (fst r)) i s /\
        get (GifLTC.V_th (fst r)) i = Some (vt + k * s * (vtr - vt)) /\
        (s == 1 -> k == (if Qle_bool vt vtr then 1 else 0) ->
         vt + k * s * (vtr - vt) == Qmax vtr vt) /\
        (s == 0 -> vt + k * s * (vtr - vt) == vt))) /\
  (forall (self : GifRefLTC.t) sh st x I1i I2i Vthi Vi (i : nat) v0 l tr v thp vt vtr,
     GifRefLTC.integral self (GifRefLTC.I1 st) (GifRefLTC.I2 st) (GifRefLTC.V_th st)
       (GifRefLTC.V st) (share_t sh) (input_or_zero x) (share_dt sh)
       = (I1i, I2i, Vthi, Vi) ->
     get (GifRefLTC.V st) i = Some v0 ->
     get (GifRefLTC.t_last_spike st) i = Some l ->
     get (GifRefLTC.tau_ref self) i = Some tr ->
     get Vi i = Some v ->
     get (GifRefLTC.V_th st) i = Some thp ->
     get Vthi i = Some vt ->
     get (GifRefLTC.V_th_reset self) i = Some vtr ->
     let vg := if Qle_bool (share_t sh - l) tr then v0 else v in
     let r := GifRefLTC.update self sh st x in
     (isTraining (mode (GifRefLTC.base self)) = false ->
        (thp <= vg ->
           spike_bool_at (snd r) (GifRefLTC.spike (fst r)) i true /\
           get (GifRefLTC.V_th (fst r)) i = Some (Qmax vtr vt) /\
           vtr <= Qmax vtr vt) /\
        (vg < thp ->
           spike_bool_at (snd r) (GifRefLTC.spike (fst r)) i false /\
           get (GifRefLTC.V_th (fst r)) i = Some vt)) /\
     (isTraining (mode (GifRefLTC.base self)) = true ->
        let s := spk_fun (GifRefLTC.base self) (vg - thp) in
        let k := spk_fun (GifRefLTC.base self) (vtr - vt) in
        spike_float_at (snd r) (GifRefLTC.spike (fst r)) i s /\
        get (GifRefLTC.V_th (fst r)) i = Some (vt + k * s * (vtr - vt)) /\
        (s == 1 -> k == (if Qle_bool vt vtr then 1 else 0) ->
         vt + k * s * (vtr - vt) == Qmax vtr vt) /\
        (s == 0 -> vt + k * s * (vtr - vt) == vt))).
Proof.
  split.
  - intros self sh st x I1i I2i Vthi Vi i v thp vt vtr Hint Hv Hthp Hvt Hvtr r.
    subst r. unfold GifLTC.update. rewrite Hint.
    split; intros Hm; rewrite Hm; simpl.
    + split; intros Hc;
        [apply Qle_bool_iff in Hc | apply Qle_bool_false in Hc].
      * split; [spike_at; by rewrite Hc|]. split; [|apply Q.le_max_l].
        arr_get. by rewrite Hc.
      * split; [spike_at | arr_get]; by rewrite Hc.
    + split; [spike_at; done|]. split; [arr_get; done|].
      split; [apply soft_max_blend|]. intros ->. ring.
  - intros self sh st x I1i I2i Vthi Vi i v0 l tr v thp vt vtr
      Hint Hv0 Hl Htr Hv Hthp Hvt Hvtr vg r.
    subst r. unfold GifRefLTC.update. rewrite Hint.
    split; intros Hm; rewrite Hm; simpl.
    + split; intros Hc;
        [apply Qle_bool_iff in Hc | apply Qle_bool_false in Hc].
      * split; [spike_at; fold vg; by rewrite Hc|]. split; [|apply Q.le_max_l].
        arr_get. fold vg. by rewrite Hc.
      * split; [spike_at | arr_get]; fold vg; by rewrite Hc.
    + split; [spike_at; done|]. split; [arr_get; done|].
      split; [apply soft_max_blend|]. intros ->. ring.
Qed.

(** [GifLTC(2, Vth_initializer=OneInit(-70.))] after [reset_state], in
    inference mode: neuron 0 spikes while its integrated threshold (-69.8)
    lies below [V_th_reset = -60], and the committed threshold is -60. *)
Lemma Gif_threshold_reset_witness :
  let self := demo_gif NonBatchingMode heaviside DBool (OneInit (-70)) in
  let st := GifLTC.reset_state self
              (GifLTC.mkState (Vec []) (Vec []) (Vec []) (Vec []) (SpkBool (Vec [])))
              None in
  let r := GifLTC.update self (demo_tick 0) st (Some (Vec [5; -10])) in
  spike_bool_at (snd r) (GifLTC.spike (fst r)) 0 true /\
  exists y, get (GifLTC.V_th (fst r)) 0 = Some y /\ y == -60.
Proof.
  intros self st r.
  destruct Gif_threshold_reset as (H & _).
  pose proof (fun a b c d =>
                H self (demo_tick 0) st (Some (Vec [5; -10])) a b c d 0%nat) as H0.
  edestruct H0 as [Hinf _]; [vm_compute; reflexivity ..|].
  destruct (Hinf eq_refl) as [(Hs & Hth & _) _]; [qconc|].
  split; [exact Hs|]. eexists. split; [exact Hth|]. qconc.
Defined.

(** C7 as stated fails in training mode: with a graded surrogate
    ([hard_sigmoid]) neuron 0 emits the spike value 2/3 and its committed
    threshold is below [V_th_reset = -60], hence not the maximum of the
    integrated threshold and [V_th_reset]. *)
Lemma Gif_training_threshold_counterexample :
  ~ (forall (self : GifLTC.t) sh st x (i : nat) s vtr y,
       spike_float_at (snd (GifLTC.update self sh st x))
         (GifLTC.spike (fst (GifLTC.update self sh st x))) i s ->
       0 < s ->
       get (GifLTC.V_th_reset self) i = Some vtr ->
       get (GifLTC.V_th (fst (GifLTC.update self sh st x))) i = Some y ->
       vtr <= y).
Proof.
  intros H.
  pose (self := demo_gif TrainingMode hard_sigmoid_at DFloat (OneInit (-70))).
  pose (st := GifLTC.reset_state self
                (GifLTC.mkState (Vec []) (Vec []) (Vec []) (Vec []) (SpkFloat (Vec [])))
                None).
  pose (r := GifLTC.update self (demo_tick 0) st (Some (Vec [1; -10]))).
  eassert (get (GifLTC.V_th (fst r)) 0 = Some _) as Hy
    by (vm_compute; reflexivity).
  eassert (spike_float_at (snd r) (GifLTC.spike (fst r)) 0 _) as Hs.
  { eexists. split; [reflexivity|]. split; [reflexivity|].
    vm_compute. reflexivity. }
  pose proof (H self (demo_tick 0) st (Some (Vec [1; -10])) 0%nat _ (-60) _
                Hs ltac:(qconc) eq_refl Hy) as Hle.
  revert Hle. vm_compute. intros Hle. apply Hle. reflexivity.
Qed.

(** The values behind the counterexample: spike values [2/3; 0] and
    committed thresholds [-949/15; -349/5], the first one below -60. *)
Example Gif_training_threshold_values :
  let self := demo_gif TrainingMode hard_sigmoid_at DFloat (OneInit (-70)) in
  let st := GifLTC.reset_state self
              (GifLTC.mkState (Vec []) (Vec []) (Vec []) (Vec []) (SpkFloat (Vec [])))
              None in
  let r := GifLTC.update self (demo_tick 0) st (Some (Vec [1; -10])) in
  exists s, snd r = Some (SpkFloat s) /\
    amap Qred s = Vec [2 # 3; 0] /\
    amap Qred (GifLTC.V_th (fst r)) = Vec [- (949 # 15); - (349 # 5)].
Proof. eexists. split; [reflexivity|]. split; vm_compute; reflexivity. Qed.

(** ** What the refractory gate leaves alone *)

(** C9. For a neuron inside its refractory window, only the voltage that
    enters the spike/reset stage is replaced by its pre-step value; the
    auxiliary variables ([w] of AdExIFRefLTC, [u] of IzhikevichRefLTC,
    [I1], [I2], [V_th] of GifRefLTC) are committed from their freshly
    integrated values, through the usual spike payload. *)
Theorem refractory_gate_frame :
  (forall (self : AdExIFRefLTC.t) sh st x Vi wi (i : nat) v0 l tr vi wv th vr bv,
     AdExIFRefLTC.integral self (AdExIFRefLTC.V st) (AdExIFRefLTC.w st) (share_t sh)
       (input_or_zero x) (share_dt sh) = (Vi, wi) ->
     get (AdExIFRefLTC.V st) i = Some v0 ->
     get (AdExIFRefLTC.t_last_spike st) i = Some l ->
     get (AdExIFRefLTC.tau_ref self) i = Some tr ->
     get Vi i = Some vi -> get wi i = Some wv ->
     get (AdExIFRefLTC.V_th self) i = Some th ->
     get (AdExIFRefLTC.V_reset self) i = Some vr ->
     get (AdExIFRefLTC.b self) i = Some bv ->
     share_t sh - l <= tr ->
     let r := AdExIFRefLTC.update self sh st x in
     get (AdExIFRefLTC.gate self sh st) i = Some true /\
     (isTraining (mode (AdExIFRefLTC.base self)) = false ->
        let s := Qle_bool th v0 in
        get (AdExIFRefLTC.V (fst r)) i = Some (if s then vr else v0) /\
        get (AdExIFRefLTC.w (fst r)) i = Some (if s then wv + bv else wv) /\
        (v0 < th ->
           get (AdExIFRefLTC.V (fst r)) i = Some v0 /\
           get (AdExIFRefLTC.w (fst r)) i = Some wv)) /\
     (isTraining (mode (AdExIFRefLTC.base self)) = true ->
        let s := spk_fun (AdExIFRefLTC.base self) (v0 - th) in
        get (AdExIFRefLTC.V (fst r)) i = Some (v0 + (vr - v0) * s) /\
        get (AdExIFRefLTC.w (fst r)) i = Some (wv + bv * s))) /\
  (forall (self : IzhikevichRefLTC.t) sh st x Vi ui (i : nat) v0 l tr vi uv th cv dv,
     IzhikevichRefLTC.integral self (IzhikevichRefLTC.V st) (IzhikevichRefLTC.u st)
       (share_t sh) (input_or_zero x) (share_dt sh) = (Vi, ui) ->
     get (IzhikevichRefLTC.V st) i = Some v0 ->
     get (IzhikevichRefLTC.t_last_spike st) i = Some l ->
     get (IzhikevichRefLTC.tau_ref self) i = Some tr ->
     get Vi i = Some vi -> get ui i = Some uv ->
     get (IzhikevichRefLTC.V_th self) i = Some th ->
     get (IzhikevichRefLTC.c self) i = Some cv ->
     get (IzhikevichRefLTC.d self) i = Some dv ->
     share_t sh - l <= tr ->
     let r := IzhikevichRefLTC.update self sh st x in
     get (IzhikevichRefLTC.gate self sh st) i = Some true /\
     (isTraining (mode (IzhikevichRefLTC.base self)) = false ->
        let s := Qle_bool th v0 in
        get (IzhikevichRefLTC.V (fst r)) i = Some (if s then cv else v0) /\
        get (IzhikevichRefLTC.u (fst r)) i = Some (if s then uv + dv else uv) /\
        (v0 < th ->
           get (IzhikevichRefLTC.V (fst r)) i = Some v0 /\
           get (IzhikevichRefLTC.u (fst r)) i = Some uv)) /\
     (isTraining (mode (IzhikevichRefLTC.base self)) = true ->
        let s := spk_fun (IzhikevichRefLTC.base self) (v0 - th) in
        get (IzhikevichRefLTC.V (fst r)) i = Some (v0 + s * (cv - th)) /\
        get (IzhikevichRefLTC.u (fst r)) i = Some (uv + s * dv))) /\
  (forall (self : GifRefLTC.t) sh st x I1i I2i Vthi Vi (i : nat)
          v0 l tr vi i1 i2 vt thp vr vtr r1 r2 a1 a2,
     GifRefLTC.integral self (GifRefLTC.I1 st) (GifRefLTC.I2 st) (GifRefLTC.V_th st)
       (GifRefLTC.V st) (share_t sh) (input_or_zero x) (share_dt sh)
       = (I1i, I2i, Vthi, Vi) ->
     get (GifRefLTC.V st) i = Some v0 ->
     get (GifRefLTC.t_last_spike st) i = Some l ->
     get (GifRefLTC.tau_ref self) i = Some tr ->
     get Vi i = Some vi -> get I1i i = Some i1 -> get I2i i = Some i2 ->
     get Vthi i = Some vt ->
     get (GifRefLTC.V_th st) i = Some thp ->
     get (GifRefLTC.V_reset self) i = Some vr ->
     get (GifRefLTC.V_th_reset self) i = Some vtr ->
     get (GifRefLTC.R1 self) i = Some r1 -> get (GifRefLTC.R2 self) i = Some r2 ->
     get (GifRefLTC.A1 self) i = Some a1 -> get (GifRefLTC.A2 self) i = Some a2 ->
     share_t sh - l <= tr ->
     let r := GifRefLTC.update self sh st x in
     get (GifRefLTC.gate self sh st) i = Some true /\
     (isTraining (mode (GifRefLTC.base self)) = false ->
        let s := Qle_bool thp v0 in
        get (GifRefLTC.V (fst r)) i = Some (if s then vr else v0) /\
        get (GifRefLTC.I1 (fst r)) i = Some (if s then r1 * i1 + a1 else i1) /\
        get (GifRefLTC.I2 (fst r)) i = Some (if s then r2 * i2 + a2 else i2) /\
        get (GifRefLTC.V_th (fst r)) i = Some (if s then Qmax vtr vt else vt) /\
        (v0 < thp ->
           get (GifRefLTC.V (fst r)) i = Some v0 /\
           get (GifRefLTC.I1 (fst r)) i = Some i1 /\
           get (GifRefLTC.I2 (fst r)) i = Some i2 /\
           get (GifRefLTC.V_th (fst r)) i = Some vt)) /\
     (isTraining (mode (GifRefLTC.base self)) = true ->
        let s := spk_fun (GifRefLTC.base self) (v0 - thp) in
        let k := spk_fun (GifRefLTC.base self) (vtr - vt) in
        get (GifRefLTC.V (fst r)) i = Some (v0 + (vr - v0) * s) /\
        get (GifRefLTC.I1 (fst r)) i = Some (i1 + s * (r1 * i1 + a1 - i1)) /\
        get (GifRefLTC.I2 (fst r)) i = Some (i2 + s * (r2 * i2 + a2 - i2)) /\
        get (GifRefLTC.V_th (fst r)) i = Some (vt + k * s * (vtr - vt)))).
Proof.
  split; [|split].
  - intros self sh st x Vi wi i v0 l tr vi wv th vr bv
      Hint Hv0 Hl Htr Hvi Hw Hth Hvr Hb Hr r.
    apply Qle_bool_iff in Hr. subst r.
    split; [unfold AdExIFRefLTC.gate; arr_get; by rewrite Hr|].
    unfold AdExIFRefLTC.update. rewrite Hint.
    split; intros Hm; rewrite Hm; simpl.
    + do 2 (split; [arr_get; by rewrite Hr|]).
      intros Hlt. apply Qle_bool_false in Hlt.
      split; arr_get; by rewrite Hr, Hlt.
    + split; arr_get; by rewrite Hr.
  - intros self sh st x Vi ui i v0 l tr vi uv th cv dv
      Hint Hv0 Hl Htr Hvi Hu Hth Hc Hd Hr r.
    apply Qle_bool_iff in Hr. subst r.
    split; [unfold IzhikevichRefLTC.gate; arr_get; by rewrite Hr|].
    unfold IzhikevichRefLTC.update. rewrite Hint.
    split; intros Hm; rewrite Hm; simpl.
    + do 2 (split; [arr_get; by rewrite Hr|]).
      intros Hlt. apply Qle_bool_false in Hlt.
      split; arr_get; by rewrite Hr, Hlt.
    + split; arr_get; by rewrite Hr.
  - intros self sh st x I1i I2i Vthi Vi i v0 l tr vi i1 i2 vt thp vr vtr r1 r2 a1 a2
      Hint Hv0 Hl Htr Hvi Hi1 Hi2 Hvt Hthp Hvr Hvtr Hr1 Hr2 Ha1 Ha2 Hr r.
    apply Qle_bool_iff in Hr. subst r.
    split; [unfold GifRefLTC.gate; arr_get; by rewrite Hr|].
    unfold GifRefLTC.update. rewrite Hint.
    split; intros Hm; rewrite Hm; simpl.
    + do 4 (split; [arr_get; by rewrite Hr|]).
      intros Hlt. apply Qle_bool_false in Hlt.
      do 3 (split; [arr_get; by rewrite Hr, Hlt|]).
      arr_get. by rewrite Hr, Hlt.
    + do 3 (split; [arr_get; by rewrite Hr|]).
      arr_get. by rewrite ?Hr.
Qed.

(** [IzhikevichRefLTC(2, tau_ref=5.)], neuron 0 last spiked at [t = 0]
    and is stepped at [t = 3]: its voltage stays at -65 although the
    integrator produced -75, while its recovery variable moves from -6 to
    the integrated -6.14. *)
Lemma refractory_gate_frame_witness :
  let self := demo_izhref NonBatchingMode heaviside DBool 5 false in
  let st := IzhikevichRefLTC.mkState (Vec [-65; -70]) (Vec [-6; -14])
              (SpkBool (Vec [false; false])) (Vec [0; -1e7]) None in
  let r := IzhikevichRefLTC.update self (demo_tick 3) st None in
  let ig := IzhikevichRefLTC.integral self (IzhikevichRefLTC.V st)
              (IzhikevichRefLTC.u st) 3 (Scal 0) 1 in
  amap Qred (fst ig) = Vec [-75; -70] /\
  get (IzhikevichRefLTC.V (fst r)) 0 = Some (-65) /\
  exists uv, get (snd ig) 0 = Some uv /\ uv == -6.14 /\
             get (IzhikevichRefLTC.u (fst r)) 0 = Some uv.
Proof.
  intros self st r ig.
  destruct refractory_gate_frame as (_ & H & _).
  pose proof (fun a b => H self (demo_tick 3) st None a b 0%nat) as H0.
  edestruct H0 as (_ & Hinf & _); [vm_compute; reflexivity .. | qconc |].
  destruct (Hinf eq_refl) as (_ & _ & Hquiet).
  destruct Hquiet as [HV Hu]; [qconc|].
  split; [vm_compute; reflexivity|]. split; [exact HV|].
  eexists. split; [|split; [|exact Hu]]; qconc.
Defined.

(** ** Two further evaluations *)

(** [AdExIFLTC(2)] in training mode with a graded surrogate: neuron 0
    emits the spike value 1/2 and its adaptation variable ends
    [b * 1/2 = 1/2] above the integrated value; the simplified
    [AdExIF.update] commits the same state and evaluates to [None]. *)
Example AdExIF_training_step :
  let self := demo_adex TrainingMode hard_sigmoid_at DFloat in
  let st := AdExIFLTC.mkState (Vec [-40; -65]) (Vec [0; 0]) (SpkFloat (Vec [0; 0])) in
  let x := Some (Vec [101.62; 0]) in
  let ig := AdExIFLTC.integral self (AdExIFLTC.V st) (AdExIFLTC.w st) 0
              (input_or_zero x) 1 in
  let r := AdExIFLTC.update self (demo_tick 0) st x in
  exists s, snd r = Some (SpkFloat s) /\
    amap Qred (fst ig) = Vec [-30; - (32581 # 500)] /\
    amap Qred s = Vec [1 # 2; 0] /\
    amap Qred (AdExIFLTC.w (fst r) .- snd ig) = Vec [1 # 2; 0] /\
    AdExIF.update self (demo_tick 0) st x = (fst r, None).
Proof.
  eexists. split; [reflexivity|]. repeat split; vm_compute; reflexivity.
Qed.

(** [LifRefLTC(2, ref_var=True)]: a reset after a run with a spike gives
    back the freshly initialised state. *)
Example LifRefLTC_reset_after_run :
  let self := demo_lifref NonBatchingMode heaviside DBool ZeroInit 5 true in
  let st1 := LifRefLTC.reset_state self
               (LifRefLTC.mkState (Vec []) (SpkBool (Vec [])) (Vec []) None) None in
  let x := Some (Vec [250; 0]) in
  let st2 := LifRefLTC.run self [(demo_tick 0, x); (demo_tick 1, x)] st1 in
  LifRefLTC.spike st2 = SpkBool (Vec [false; false]) /\
  amap Qred (LifRefLTC.t_last_spike st2) = Vec [0; -1e7] /\
  LifRefLTC.refractory st2 = Some (Vec [true; false]) /\
  LifRefLTC.reset_state self st2 None =
    {| LifRefLTC.V := Vec [0; 0];
       LifRefLTC.spike := SpkBool (Vec [false; false]);
       LifRefLTC.t_last_spike := Vec [-1e7; -1e7];
       LifRefLTC.refractory := Some (Vec [false; false]) |}.
Proof. repeat split; vm_compute; reflexivity. Qed.

(** * Further properties of the update rules *)

(** ** Inference mode never leaves a neuron at or above threshold *)

(** X1. After one inference-mode step every neuron's committed voltage is
    either the reset value or strictly below the threshold it was tested
    against; with a reset value below the threshold it is below the
    threshold.  LifLTC, LifRefLTC, AdExIFLTC and IzhikevichLTC (whose
    reset value is [c]). *)
Theorem inference_commits_below_threshold :
  (forall (self : LifLTC.t) sh st x (i : nat) v th vr,
     isTraining (mode (LifLTC.base self)) = false ->
     get (LifLTC.integral self (LifLTC.V st) (share_t sh) (input_or_zero x)
            (share_dt sh)) i = Some v ->
     get (LifLTC.V_th self) i = Some th ->
     get (LifLTC.V_reset self) i = Some vr ->
     exists y, get (LifLTC.V (fst (LifLTC.update self sh st x))) i = Some y /\
               (y = vr \/ y < th) /\ (vr < th -> y < th)) /\
  (forall (self : LifRefLTC.t) sh st x (i : nat) v0 l vi th vr tr,
     isTraining (mode (LifRefLTC.base self)) = false ->
     get (LifRefLTC.V st) i = Some v0 ->
     get (LifRefLTC.t_last_spike st) i = Some l ->
     get (LifRefLTC.integral self (LifRefLTC.V st) (share_t sh) (input_or_zero x)
            (share_dt sh)) i = Some vi ->
     get (LifRefLTC.V_th self) i = Some th ->
     get (LifRefLTC.V_reset self) i = Some vr ->
     get (LifRefLTC.tau_ref self) i = Some tr ->
     exists y, get (LifRefLTC.V (fst (LifRefLTC.update self sh st x))) i = Some y /\
               (y = vr \/ y < th) /\ (vr < th -> y < th)) /\
  (forall (self : AdExIFLTC.t) sh st x Vi wi (i : nat) v th vr,
     isTraining (mode (AdExIFLTC.base self)) = false ->
     AdExIFLTC.integral self (AdExIFLTC.V st) (AdExIFLTC.w st) (share_t sh)
       (input_or_zero x) (share_dt sh) = (Vi, wi) ->
     get Vi i = Some v -> is_Some (get wi i) ->
     get (AdExIFLTC.V_th self) i = Some th ->
     get (AdExIFLTC.V_reset self) i = Some vr ->
     exists y, get (AdExIFLTC.V (fst (AdExIFLTC.update self sh st x))) i = Some y /\
               (y = vr \/ y < th) /\ (vr < th -> y < th)) /\
  (forall (self : IzhikevichLTC.t) sh st x Vi ui (i : nat) v th cv,
     isTraining (mode (IzhikevichLTC.base self)) = false ->
     IzhikevichLTC.integral self (IzhikevichLTC.V st) (IzhikevichLTC.u st) (share_t sh)
       (input_or_zero x) (share_dt sh) = (Vi, ui) ->
     get Vi i = Some v ->
     get (IzhikevichLTC.V_th self) i = Some th ->
     get (IzhikevichLTC.c self) i = Some cv ->
     exists y, get (IzhikevichLTC.V (fst (IzhikevichLTC.update self sh st x))) i = Some y /\
               (y = cv \/ y < th) /\ (cv < th -> y < th)).
Proof.
  assert (forall th v vr : Q,
            let y := if Qle_bool th v then vr else v in
            (y = vr \/ y < th) /\ (vr < th -> y < th)) as Hcase.
  { intros th v vr y. subst y. destruct (Qle_bool th v) eqn:E.
    - split; [by left | done].
    - apply Qle_bool_false in E. split; [by right | done]. }
  split; [|split; [|split]].
  - intros self sh st x i v th vr Hm Hv Hth Hvr.
    unfold LifLTC.update. rewrite LifLTC_infer_eq by done. simpl.
    eexists. split; [arr_get; reflexivity|]. apply Hcase.
  - intros self sh st x i v0 l vi th vr tr Hm Hv0 Hl Hvi Hth Hvr Htr.
    destruct (LifRefLTC_infer_at self (LifRefLTC.integral self) sh st x i
                v0 l vi th vr tr Hv0 Hl Hvi Hth Hvr Htr Hm) as (_ & HV & _).
    eexists. split; [exact HV|]. apply Hcase.
  - intros self sh st x Vi wi i v th vr Hm Hint Hv [wv Hw] Hth Hvr.
    unfold AdExIFLTC.update, AdExIFLTC.update_with. rewrite Hint, Hm. simpl.
    eexists. split; [arr_get; reflexivity|]. apply Hcase.
  - intros self sh st x Vi ui i v th cv Hm Hint Hv Hth Hc.
    unfold IzhikevichLTC.update. rewrite Hint, Hm. simpl.
    eexists. split; [arr_get; reflexivity|]. apply Hcase.
Qed.

Lemma inference_commits_below_threshold_witness :
  let self := demo_lif NonBatchingMode heaviside DBool in
  let st := LifLTC.mkState (Vec [18; 0]) (SpkBool (Vec [false; false])) in
  exists y, get (LifLTC.V (fst (LifLTC.update self (demo_tick 0) st
                                  (Some (Vec [58; 0]))))) 0 = Some y /\ y < 20.
Proof.
  intros self st.
  destruct inference_commits_below_threshold as (H & _).
  edestruct (H self (demo_tick 0) st (Some (Vec [58; 0])) 0%nat)
    as (y & Hy & _ & Hlt); [vm_compute; reflexivity ..|].
  exists y. split; [exact Hy|]. apply Hlt. qconc.
Defined.

(** ** Simplified variants against their LTC parents *)

Lemma euler_single_evaluation : single_evaluation euler.
Proof. intros f g s t x x' dt H. unfold euler. by rewrite H. Qed.

Lemma euler2_single_evaluation : single_evaluation euler2.
Proof. intros f g s t x x' dt H. unfold euler2. by rewrite H. Qed.

(** X2. Under an integration method that evaluates the derivative once, a
    simplified variant (inputs aggregated once, before the step) commits
    exactly the state its LTC parent commits (inputs aggregated inside the
    derivative), whatever current inputs are registered.  Lif/LifLTC,
    LifRef/LifRefLTC, AdExIF/AdExIFLTC and IF/IFLTC. *)
Theorem simplified_commits_ltc_state :
  (forall (self : LifLTC.t) sh st x,
     single_evaluation (LifLTC.method self) ->
     fst (Lif.update self sh st x) = fst (LifLTC.update self sh st x)) /\
  (forall (self : LifRefLTC.t) sh st x,
     single_evaluation (LifLTC.method (LifRefLTC.lif self)) ->
     fst (LifRef.update self sh st x) = fst (LifRefLTC.update self sh st x)) /\
  (forall (self : AdExIFLTC.t) sh st x,
     single_evaluation (AdExIFLTC.method self) ->
     fst (AdExIF.update self sh st x) = fst (AdExIFLTC.update self sh st x)) /\
  (forall (self : IFLTC.t) sh st x,
     single_evaluation (IFLTC.method self) ->
     fst (IF.update self sh st x) = fst (IFLTC.update self sh st x)).
Proof.
  split; [|split; [|split]].
  - intros self sh st x Hm.
    assert (Lif.integral self (LifLTC.V st) (share_t sh)
              (sum_cur_inputs (LifLTC.base self) (LifLTC.V st) (input_or_zero x))
              (share_dt sh)
            = LifLTC.integral self (LifLTC.V st) (share_t sh) (input_or_zero x)
                (share_dt sh)) as E by (by apply Hm).
    unfold Lif.update, LifLTC.update, LifLTC.update_with. simpl. rewrite E.
    by destruct (isTraining _).
  - intros self sh st x Hm.
    assert (LifRef.integral self (LifRefLTC.V st) (share_t sh)
              (sum_cur_inputs (LifRefLTC.base self) (LifRefLTC.V st) (input_or_zero x))
              (share_dt sh)
            = LifRefLTC.integral self (LifRefLTC.V st) (share_t sh) (input_or_zero x)
                (share_dt sh)) as E by (by apply Hm).
    unfold LifRef.update, LifRefLTC.update, LifRefLTC.update_with. simpl. rewrite E.
    by destruct (isTraining _).
  - intros self sh st x Hm.
    assert (AdExIF.integral self (AdExIFLTC.V st) (AdExIFLTC.w st) (share_t sh)
              (sum_cur_inputs (AdExIFLTC.base self) (AdExIFLTC.V st) (input_or_zero x))
              (share_dt sh)
            = AdExIFLTC.integral self (AdExIFLTC.V st) (AdExIFLTC.w st) (share_t sh)
                (input_or_zero x) (share_dt sh)) as E by (by apply Hm).
    unfold AdExIF.update, AdExIFLTC.update, AdExIFLTC.update_with. simpl. rewrite E.
    destruct (AdExIFLTC.integral _ _ _ _ _ _). by destruct (isTraining _).
  - intros self sh st x Hm.
    assert (IF.integral self (IFLTC.V st) (share_t sh)
              (sum_cur_inputs (IFLTC.base self) (IFLTC.V st) (input_or_zero x))
              (share_dt sh)
            = IFLTC.integral self (IFLTC.V st) (share_t sh) (input_or_zero x)
                (share_dt sh)) as E by (by apply Hm).
    unfold IF.update, IFLTC.update, IFLTC.update_with. simpl. by rewrite E.
Qed.

(** Explicit Euler with a voltage-dependent registered input. *)
Lemma simplified_commits_ltc_state_witness :
  let self := demo_lif_syn NonBatchingMode heaviside DBool euler in
  let st := LifLTC.mkState (Vec [0; 4]) (SpkBool (Vec [false; false])) in
  fst (Lif.update self (demo_tick 0) st None) =
  fst (LifLTC.update self (demo_tick 0) st None).
Proof.
  intros self st.
  apply (proj1 simplified_commits_ltc_state self (demo_tick 0) st None).
  apply euler_single_evaluation.
Defined.

(** The restriction is needed: under the two-stage midpoint rule the
    simplified variant holds the aggregated input fixed at the second
    stage and commits a different voltage. *)
Example midpoint_separates_Lif_from_LifLTC :
  let self := demo_lif_syn NonBatchingMode heaviside DBool midpoint in
  let st := LifLTC.mkState (Vec [0; 4]) (SpkBool (Vec [false; false])) in
  amap Qred (LifLTC.V (fst (LifLTC.update self (demo_tick 0) st None)))
    = Vec [37 # 80; 1563 # 400] /\
  amap Qred (LifLTC.V (fst (Lif.update self (demo_tick 0) st None)))
    = Vec [19 # 40; 781 # 200].
Proof. split; vm_compute; reflexivity. Qed.

(** ** Training mode with a step-shaped surrogate *)

(** X3. When the surrogate is the 0/1 step (1 exactly for a non-negative
    argument), a training-mode [LifLTC.update] emits the spike value 1
    where the inference-mode update emits [True] and 0 where it emits
    [False], and both commit the same voltage. *)
Theorem LifLTC_step_surrogate_agrees_with_inference
    (self_t self_i : LifLTC.t) (sh : Share) (st : LifLTC.state)
    (x : option (Arr Q)) (i : nat) (v th vr : Q) :
  isTraining (mode (LifLTC.base self_t)) = true ->
  isTraining (mode (LifLTC.base self_i)) = false ->
  (forall z, spk_fun (LifLTC.base self_t) z = if Qle_bool 0 z then 1 else 0) ->
  get (LifLTC.integral self_t (LifLTC.V st) (share_t sh) (input_or_zero x)
         (share_dt sh)) i = Some v ->
  get (LifLTC.integral self_i (LifLTC.V st) (share_t sh) (input_or_zero x)
         (share_dt sh)) i = Some v ->
  get (LifLTC.V_th self_t) i = Some th -> get (LifLTC.V_th self_i) i = Some th ->
  get (LifLTC.V_reset self_t) i = Some vr -> get (LifLTC.V_reset self_i) i = Some vr ->
  let rt := LifLTC.update self_t sh st x in
  let ri := LifLTC.update self_i sh st x in
  exists (s : Q) (b : bool) (yt yi : Q),
    spike_float_at (snd rt) (LifLTC.spike (fst rt)) i s /\
    spike_bool_at (snd ri) (LifLTC.spike (fst ri)) i b /\
    s = (if b then 1 else 0) /\
    get (LifLTC.V (fst rt)) i = Some yt /\
    get (LifLTC.V (fst ri)) i = Some yi /\
    yt == yi.
Proof.
  intros Hmt Hmi Hstep Hvt Hvi Htht Hthi Hvrt Hvri rt ri. subst rt ri.
  unfold LifLTC.update.
  rewrite (LifLTC_train_eq self_t) by done.
  rewrite (LifLTC_infer_eq self_i) by done. simpl.
  assert (Qle_bool 0 (v - th) = Qle_bool th v) as Hb.
  { destruct (Qle_bool th v) eqn:E.
    - apply Qle_bool_iff in E. apply Qle_bool_iff. lra.
    - apply Qle_bool_false in E. apply Qle_bool_false. lra. }
  exists (spk_fun (LifLTC.base self_t) (v - th)), (Qle_bool th v).
  eexists _, _.
  split; [spike_at; done|]. split; [spike_at; done|].
  split; [by rewrite Hstep, Hb|].
  split; [arr_get; reflexivity|]. split; [arr_get; reflexivity|].
  rewrite Hstep, Hb. destruct (Qle_bool th v); ring.
Qed.

Lemma LifLTC_step_surrogate_agrees_with_inference_witness :
  let self_t := demo_lif TrainingMode heaviside DFloat in
  let self_i := demo_lif NonBatchingMode heaviside DBool in
  let st := LifLTC.mkState (Vec [18; 0]) (SpkBool (Vec [false; false])) in
  let x := Some (Vec [58; 0]) in
  exists yt yi,
    get (LifLTC.V (fst (LifLTC.update self_t (demo_tick 0) st x))) 0 = Some yt /\
    get (LifLTC.V (fst (LifLTC.update self_i (demo_tick 0) st x))) 0 = Some yi /\
    yt == yi /\ yi == -5.
Proof.
  intros self_t self_i st x.
  edestruct (LifLTC_step_surrogate_agrees_with_inference self_t self_i (demo_tick 0)
               st x 0%nat) as (s & b & yt & yi & _ & _ & _ & Ht & Hi & Heq);
    [reflexivity | reflexivity | intros; reflexivity | vm_compute; reflexivity ..|].
  exists yt, yi. split; [exact Ht|]. split; [exact Hi|]. split; [exact Heq|].
  revert Hi. vm_compute. intros Hi. injection Hi as <-. reflexivity.
Defined.

(** ** Refractory bookkeeping *)

(** X4. With a non-negative refractory period, the committed [refractory]
    flag of a neuron is the gate condition evaluated on the committed
    spike time: the flag is set exactly when
    [t - t_last_spike <= tau_ref] holds after the step.  Both modes. *)
Theorem LifRefLTC_flag_is_gate_of_committed_time (self : LifRefLTC.t) (sh : Share)
    (st : LifRefLTC.state) (x : option (Arr Q)) (i : nat) (v l vi th vr tr : Q) :
  LifRefLTC.ref_var self = true ->
  0 <= tr ->
  get (LifRefLTC.V st) i = Some v ->
  get (LifRefLTC.t_last_spike st) i = Some l ->
  get (LifRefLTC.integral self (LifRefLTC.V st) (share_t sh) (input_or_zero x)
         (share_dt sh)) i = Some vi ->
  get (LifRefLTC.V_th self) i = Some th ->
  get (LifRefLTC.V_reset self) i = Some vr ->
  get (LifRefLTC.tau_ref self) i = Some tr ->
  let st' := fst (LifRefLTC.update self sh st x) in
  exists l',
    get (LifRefLTC.t_last_spike st') i = Some l' /\
    flag_at (LifRefLTC.refractory st') i (Qle_bool (share_t sh - l') tr).
Proof.
  intros Hrv Htr0 Hv Hl Hvi Hth Hvr Htr st'. subst st'. unfold LifRefLTC.update.
  assert (Qle_bool (share_t sh - share_t sh) tr = true) as Hnow
    by (apply Qle_bool_iff; lra).
  destruct (isTraining (mode (LifRefLTC.base self))) eqn:Hm.
  - destruct (LifRefLTC_train_at self (LifRefLTC.integral self) sh st x i
                v l vi th vr tr Hv Hl Hvi Hth Hvr Htr Hm) as (_ & _ & Hl' & Hf).
    specialize (Hf Hrv). eexists. split; [exact Hl'|].
    destruct (Qgt_bool _ 0).
    + by rewrite Hnow, orb_true_r in *.
    + by rewrite orb_false_r in Hf.
  - destruct (LifRefLTC_infer_at self (LifRefLTC.integral self) sh st x i
                v l vi th vr tr Hv Hl Hvi Hth Hvr Htr Hm) as (_ & _ & Hl' & Hf).
    specialize (Hf Hrv). eexists. split; [exact Hl'|].
    destruct (Qle_bool th _).
    + by rewrite Hnow, orb_true_r in *.
    + by rewrite orb_false_r in Hf.
Qed.

Lemma LifRefLTC_flag_is_gate_of_committed_time_witness :
  let self := demo_lifref NonBatchingMode heaviside DBool ZeroInit 5 true in
  let st := LifRefLTC.mkState (Vec [18; 0]) (SpkBool (Vec [false; false]))
                              (Vec [-1e7; -1e7]) (Some (Vec [false; false])) in
  let st' := fst (LifRefLTC.update self (demo_tick 3) st (Some (Vec [58; 0]))) in
  get (LifRefLTC.t_last_spike st') 0 = Some 3 /\
  flag_at (LifRefLTC.refractory st') 0 true.
Proof.
  intros self st st'.
  edestruct (LifRefLTC_flag_is_gate_of_committed_time self (demo_tick 3) st
               (Some (Vec [58; 0])) 0%nat) as (l' & Hl & Hf);
    [reflexivity | | vm_compute; reflexivity ..|]; [qconc|].
  assert (l' = 3) as -> by (revert Hl; vm_compute; congruence).
  split; [exact Hl | exact Hf].
Defined.

(** A neuron with a negative refractory period that spikes gets the flag
    although the gate condition fails on its committed spike time. *)
Example negative_tau_ref_flag :
  let self := demo_lifref NonBatchingMode heaviside DBool ZeroInit (-1) true in
  let st := LifRefLTC.mkState (Vec [18; 0]) (SpkBool (Vec [false; false]))
                              (Vec [-1e7; -1e7]) (Some (Vec [false; false])) in
  let st' := fst (LifRefLTC.update self (demo_tick 3) st (Some (Vec [58; 0]))) in
  LifRefLTC.refractory st' = Some (Vec [true; false]) /\
  LifRefLTC.gate self (demo_tick 3) st' = Vec [false; false].
Proof. split; vm_compute; reflexivity. Qed.

(** X5. Over any run of updates, the spike time of a neuron is its initial
    value or the time of one of the ticks: [update] never writes any
    other value into [t_last_spike].  Both modes. *)
Theorem LifRefLTC_spike_time_provenance (self : LifRefLTC.t) (i : nat) (th vr tr : Q) :
  get (LifRefLTC.V_th self) i = Some th ->
  get (LifRefLTC.V_reset self) i = Some vr ->
  get (LifRefLTC.tau_ref self) i = Some tr ->
  (forall V t x dt, is_Some (get V i) -> is_Some (get x i) ->
                    is_Some (get (LifRefLTC.integral self V t x dt) i)) ->
  forall ticks st l0,
    Forall (fun tick => is_Some (get (input_or_zero (snd tick)) i)) ticks ->
    is_Some (get (LifRefLTC.V st) i) ->
    get (LifRefLTC.t_last_spike st) i = Some l0 ->
    exists l',
      get (LifRefLTC.t_last_spike (LifRefLTC.run self ticks st)) i = Some l' /\
      (l' = l0 \/ l' ∈ (fun tick => share_t (fst tick)) <$> ticks).
Proof.
  intros Hth Hvr Htr Hint ticks.
  induction ticks as [|[sh x] ticks IH]; intros st l0 Hall [v Hv] Hl.
  { exists l0. split; [done | by left]. }
  apply Forall_cons in Hall as [Hx Hall]. simpl in Hx.
  change (LifRefLTC.run self ((sh, x) :: ticks) st) with
    (LifRefLTC.run self ticks (fst (LifRefLTC.update self sh st x))).
  destruct (Hint (LifRefLTC.V st) (share_t sh) (input_or_zero x) (share_dt sh))
    as [vi Hvi]; [by rewrite Hv | done |].
  assert (exists l1, is_Some (get (LifRefLTC.V (fst (LifRefLTC.update self sh st x))) i) /\
            get (LifRefLTC.t_last_spike (fst (LifRefLTC.update self sh st x))) i = Some l1 /\
            (l1 = l0 \/ l1 = share_t sh)) as (l1 & HV1 & Hl1 & Hor).
  { unfold LifRefLTC.update.
    destruct (isTraining (mode (LifRefLTC.base self))) eqn:Hm.
    - destruct (LifRefLTC_train_at self (LifRefLTC.integral self) sh st x i
                  v l0 vi th vr tr Hv Hl Hvi Hth Hvr Htr Hm) as (_ & HV & Hl' & _).
      eexists. split; [by rewrite HV|]. split; [exact Hl'|].
      destruct (Qgt_bool _ 0); auto.
    - destruct (LifRefLTC_infer_at self (LifRefLTC.integral self) sh st x i
                  v l0 vi th vr tr Hv Hl Hvi Hth Hvr Htr Hm) as (_ & HV & Hl' & _).
      eexists. split; [by rewrite HV|]. split; [exact Hl'|].
      destruct (Qle_bool th _); auto. }
  destruct (IH _ l1 Hall HV1 Hl1) as (l' & Hl' & Hor').
  exists l'. split; [exact Hl'|].
  rewrite fmap_cons. simpl.
  destruct Hor' as [-> | Hin].
  - destruct Hor as [-> | ->]; [by left | right; apply list_elem_of_here].
  - right. by apply list_elem_of_further.
Qed.

Lemma LifRefLTC_spike_time_provenance_witness :
  let self := demo_lifref NonBatchingMode heaviside DBool ZeroInit 5 false in
  let st := LifRefLTC.mkState (Vec [18; 0]) (SpkBool (Vec [false; false]))
                              (Vec [-1e7; -1e7]) None in
  let x := Some (Vec [58; 0]) in
  let ticks := [(demo_tick 0, x); (demo_tick 1, x); (demo_tick 2, x)] in
  exists l', get (LifRefLTC.t_last_spike (LifRefLTC.run self ticks st)) 0 = Some l' /\
             (l' = -1e7 \/ l' ∈ [0; 1; 2]).
Proof.
  intros self st x ticks.
  apply (LifRefLTC_spike_time_provenance self 0%nat 20 (-5) 5 eq_refl eq_refl eq_refl
           (demo_lifref_integral_total _ _ _ _ _ _ 0%nat) ticks st (-1e7)).
  - subst ticks. repeat (apply Forall_cons; split; [by eexists|]). by apply Forall_nil.
  - by eexists.
  - reflexivity.
Defined.





(** ** The shape invariant *)

Lemma has_size_broadcastable {A} (n : nat) (x : Arr A) :
  has_size n x -> broadcastable n x.
Proof. by destruct x. Qed.

Lemma has_size_map2_l {A B C} (f : A -> B -> C) (n : nat) (x : Arr A) (y : Arr B) :
  has_size n x -> broadcastable n y -> has_size n (map2 f x y).
Proof.
  destruct x as [a|l], y as [b|k]; unfold map2; simpl; try done.
  - by rewrite length_fmap.
  - intros Hl Hk. rewrite length_zip_with. lia.
Qed.

Lemma has_size_map2_r {A B C} (f : A -> B -> C) (n : nat) (x : Arr A) (y : Arr B) :
  broadcastable n x -> has_size n y -> has_size n (map2 f x y).
Proof.
  destruct x as [a|l], y as [b|k]; unfold map2; simpl; try done.
  - by rewrite length_fmap.
  - intros Hl Hk. rewrite length_zip_with. lia.
Qed.

Lemma broadcastable_map2 {A B C} (f : A -> B -> C) (n : nat) (x : Arr A) (y : Arr B) :
  broadcastable n x -> broadcastable n y -> broadcastable n (map2 f x y).
Proof.
  destruct x as [a|l], y as [b|k]; unfold map2; simpl; try done.
  - by rewrite length_fmap.
  - by rewrite length_fmap.
  - intros Hl Hk. rewrite length_zip_with. lia.
Qed.

Lemma has_size_amap {A B} (f : A -> B) (n : nat) (x : Arr A) :
  has_size n x -> has_size n (amap f x).
Proof. destruct x; unfold amap; simpl; [done | by rewrite length_fmap]. Qed.

Lemma has_size_where {A} (n : nat) (c : Arr bool) (x y : Arr A) :
  has_size n c -> broadcastable n x -> broadcastable n y ->
  has_size n (bm_where c x y).
Proof.
  intros Hc Hx Hy. unfold bm_where.
  apply has_size_map2_l; [done | by apply broadcastable_map2].
Qed.

Lemma broadcastable_Scal {A} (n : nat) (a : A) : broadcastable n (Scal a).
Proof. done. Qed.

Lemma broadcastable_amap {A B} (f : A -> B) (n : nat) (x : Arr A) :
  broadcastable n x -> broadcastable n (amap f x).
Proof. destruct x; unfold amap; simpl; [done | by rewrite length_fmap]. Qed.

Create HintDb shape.
#[local] Hint Resolve has_size_broadcastable has_size_map2_l has_size_map2_r
  has_size_amap has_size_where broadcastable_Scal : shape.

Lemma LifRefLTC_update_keeps_size (self : LifRefLTC.t) (n : nat) sh st x :
  broadcastable n (LifRefLTC.V_th self) ->
  broadcastable n (LifRefLTC.V_reset self) ->
  broadcastable n (LifRefLTC.tau_ref self) ->
  (forall V t x dt, has_size n V -> broadcastable n x ->
                    has_size n (LifRefLTC.integral self V t x dt)) ->
  broadcastable n (input_or_zero x) ->
  has_size n (LifRefLTC.V st) ->
  has_size n (LifRefLTC.t_last_spike st) ->
  let st' := fst (LifRefLTC.update self sh st x) in
  has_size n (LifRefLTC.V st') /\
  spk_has_size n (LifRefLTC.spike st') /\
  has_size n (LifRefLTC.t_last_spike st') /\
  (LifRefLTC.ref_var self = true ->
   exists f, LifRefLTC.refractory st' = Some f /\ has_size n f).
Proof.
  intros Hth Hvr Htr Hint Hx HV Hl st'. subst st'.
  pose proof (Hint _ (share_t sh) _ (share_dt sh) HV Hx) as HVi.
  unfold LifRefLTC.update, LifRefLTC.update_with.
  rewrite gate_stop_gradient.
  set (Vi := LifRefLTC.integral self _ _ _ _) in *.
  assert (has_size n (Scal (share_t sh) .- LifRefLTC.t_last_spike st
                      .<= LifRefLTC.tau_ref self)) as Hg
    by (arr_unfold; eauto 6 with shape).
  set (g := _ .<= LifRefLTC.tau_ref self) in *.
  assert (has_size n (bm_where g (LifRefLTC.V st) Vi)) as HVg
    by eauto with shape.
  set (Vg := bm_where g (LifRefLTC.V st) Vi) in *.
  destruct (isTraining _); simpl; rewrite ?detach_id.
  - assert (has_size n (surrogate (LifRefLTC.base self) (Vg .- LifRefLTC.V_th self)))
      as Hs by (arr_unfold; eauto with shape).
    set (s := surrogate _ _) in *.
    assert (has_size n (s .> Scal 0)) as Hs_ by (arr_unfold; eauto with shape).
    repeat split; try done.
    + arr_unfold. eauto 8 with shape.
    + unfold stop_gradient. eauto with shape.
    + intros ->. eexists. split; [done|]. arr_unfold. eauto with shape.
  - assert (has_size n (Vg .>= LifRefLTC.V_th self)) as Hs
      by (arr_unfold; eauto with shape).
    set (s := Vg .>= _) in *.
    repeat split; try done.
    + eauto with shape.
    + eauto with shape.
    + intros ->. eexists. split; [done|]. arr_unfold. eauto with shape.
Qed.

(** X7. After [reset_state] and any run of updates, every state tensor of a
    LifRefLTC population ([V], [spike], [t_last_spike] and, when present,
    [refractory]) has exactly the [(batch?, *varshape)] number of
    elements, provided the voltage initializer honours the requested
    size, the parameters and inputs broadcast against that size and the
    integrator preserves it. *)
Theorem LifRefLTC_shape_invariant (self : LifRefLTC.t) (batch_size : option nat) :
  let n := variable_size (LifRefLTC.base self) batch_size in
  (forall m, length (LifLTC.V_initializer (LifRefLTC.lif self) m) = m) ->
  broadcastable n (LifRefLTC.V_th self) ->
  broadcastable n (LifRefLTC.V_reset self) ->
  broadcastable n (LifRefLTC.tau_ref self) ->
  (forall V t x dt, has_size n V -> broadcastable n x ->
                    has_size n (LifRefLTC.integral self V t x dt)) ->
  forall st0 ticks,
    Forall (fun tick => broadcastable n (input_or_zero (snd tick))) ticks ->
    let st := LifRefLTC.run self ticks (LifRefLTC.reset_state self st0 batch_size) in
    has_size n (LifRefLTC.V st) /\
    spk_has_size n (LifRefLTC.spike st) /\
    has_size n (LifRefLTC.t_last_spike st) /\
    (LifRefLTC.ref_var self = true ->
     exists f, LifRefLTC.refractory st = Some f /\ has_size n f).
Proof.
  intros n Hinit Hth Hvr Htr Hint st0 ticks Hall.
  assert (forall st,
            has_size n (LifRefLTC.V st) /\ spk_has_size n (LifRefLTC.spike st) /\
            has_size n (LifRefLTC.t_last_spike st) /\
            (LifRefLTC.ref_var self = true ->
             exists f, LifRefLTC.refractory st = Some f /\ has_size n f) ->
            let st' := LifRefLTC.run self ticks st in
            has_size n (LifRefLTC.V st') /\ spk_has_size n (LifRefLTC.spike st') /\
            has_size n (LifRefLTC.t_last_spike st') /\
            (LifRefLTC.ref_var self = true ->
             exists f, LifRefLTC.refractory st' = Some f /\ has_size n f)) as Hrun.
  { induction ticks as [|[sh x] ticks IH]; intros st Hst; [exact Hst|].
    apply Forall_cons in Hall as [Hx Hall]. simpl in Hx.
    change (LifRefLTC.run self ((sh, x) :: ticks) st) with
      (LifRefLTC.run self ticks (fst (LifRefLTC.update self sh st x))).
    apply (IH Hall). destruct Hst as (HV & _ & Hl & _).
    by apply LifRefLTC_update_keeps_size. }
  apply Hrun. unfold LifRefLTC.reset_state. simpl.
  repeat split.
  - apply Hinit.
  - unfold init_spike. destruct (spk_type _); simpl.
    + apply length_replicate.
    + apply length_replicate.
  - apply length_replicate.
  - intros ->. eexists. split; [done|]. simpl. apply length_replicate.
Qed.

Lemma demo_lifref_integral_keeps_size m f ty init tr rv (n : nat) V t x dt :
  has_size n V -> broadcastable n x ->
  has_size n (LifRefLTC.integral (demo_lifref m f ty init tr rv) V t x dt).
Proof.
  intros HV Hx. unfold LifRefLTC.integral. simpl.
  unfold euler, LifLTC.derivative, sum_cur_inputs. simpl.
  arr_unfold.
  apply has_size_map2_l; [done|].
  repeat (first [ apply broadcastable_map2 | apply broadcastable_amap
                | apply broadcastable_Scal ]);
    first [assumption | by apply has_size_broadcastable].
Qed.

Lemma LifRefLTC_shape_invariant_witness :
  let self := demo_lifref BatchingMode heaviside DBool ZeroInit 5 true in
  let x := Some (Vec [250; 0; 0; 250; 0; 0]) in
  let st := LifRefLTC.run self [(demo_tick 0, x); (demo_tick 1, None)]
              (LifRefLTC.reset_state self
                 (LifRefLTC.mkState (Vec []) (SpkBool (Vec [])) (Vec []) None) (Some 3%nat)) in
  has_size 6 (LifRefLTC.V st) /\ spk_has_size 6 (LifRefLTC.spike st) /\
  has_size 6 (LifRefLTC.t_last_spike st).
Proof.
  intros self x st.
  destruct (LifRefLTC_shape_invariant self (Some 3%nat)) with
    (st0 := LifRefLTC.mkState (Vec []) (SpkBool (Vec [])) (Vec []) None)
    (ticks := [(demo_tick 0, x); (demo_tick 1, None)]) as (HV & Hs & Hl & _).
  - intros m. apply length_replicate.
  - exact I.
  - exact I.
  - exact I.
  - apply demo_lifref_integral_keeps_size.
  - repeat (apply Forall_cons; split; [simpl; try reflexivity; exact I|]).
    by apply Forall_nil.
  - split; [exact HV|]. split; [exact Hs | exact Hl].
Defined.

(** ** Izhikevich: the training-mode reset, and the default initial state *)

(** X8. In training mode [IzhikevichLTC.update] commits
    [V + spike * (c - V_th)]: a full spike (value 1) lands the voltage at
    [c] plus the overshoot [V - V_th] of the integrated voltage above the
    threshold, so it equals the inference-mode reset value [c] only when
    the integrated voltage sits exactly on the threshold. *)
Theorem IzhikevichLTC_training_reset_keeps_overshoot (self : IzhikevichLTC.t)
    (sh : Share) (st : IzhikevichLTC.state) (x : option (Arr Q))
    (Vi ui : Arr Q) (i : nat) (v th cv : Q) :
  isTraining (mode (IzhikevichLTC.base self)) = true ->
  IzhikevichLTC.integral self (IzhikevichLTC.V st) (IzhikevichLTC.u st) (share_t sh)
    (input_or_zero x) (share_dt sh) = (Vi, ui) ->
  get Vi i = Some v ->
  get (IzhikevichLTC.V_th self) i = Some th ->
  get (IzhikevichLTC.c self) i = Some cv ->
  spk_fun (IzhikevichLTC.base self) (v - th) == 1 ->
  exists y,
    get (IzhikevichLTC.V (fst (IzhikevichLTC.update self sh st x))) i = Some y /\
    y - cv == v - th /\
    (y == cv <-> v == th).
Proof.
  intros Hm Hint Hv Hth Hc Hs.
  unfold IzhikevichLTC.update. rewrite Hint, Hm. simpl.
  eexists. split; [arr_get; reflexivity|].
  split; [rewrite Hs; ring|].
  rewrite Hs. split; intros H; lra.
Qed.

Lemma IzhikevichLTC_training_reset_keeps_overshoot_witness :
  let self := demo_izh TrainingMode heaviside DFloat in
  let st := IzhikevichLTC.mkState (Vec [29; -70]) (Vec [0; -14])
                                  (SpkFloat (Vec [0; 0])) in
  let sh := {| share_t := 0; share_dt := 0.01 |} in
  exists y, get (IzhikevichLTC.V (fst (IzhikevichLTC.update self sh st None))) 0 = Some y /\
            y == -62.8136.
Proof.
  intros self st sh.
  pose proof (fun a b => IzhikevichLTC_training_reset_keeps_overshoot self sh st None
                           a b 0%nat) as H.
  edestruct H as (y & Hy & Hd & _);
    [reflexivity | vm_compute; reflexivity .. | qconc |].
  exists y. split; [exact Hy|].
  revert Hy. vm_compute. intros Hy. injection Hy as <-. reflexivity.
Defined.




(** ** The derivative functions *)

(** X10. The leaky derivative of Lif (and of IF, which has the same formula)
    points towards the steady state [V_rest + R * I]: with a positive
    time constant it is positive below it, negative above it and zero
    exactly on it. *)
Theorem leaky_derivative_sign :
  (forall (self : LifLTC.t) V t I (i : nat) v vrest r iv tau0,
     get V i = Some v -> get I i = Some iv ->
     get (LifLTC.V_rest self) i = Some vrest ->
     get (LifLTC.R self) i = Some r ->
     get (LifLTC.tau self) i = Some tau0 ->
     0 < tau0 ->
     exists d, get (Lif.derivative self V t I) i = Some d /\
               (0 < d <-> v < vrest + r * iv) /\
               (d == 0 <-> v == vrest + r * iv) /\
               (d < 0 <-> vrest + r * iv < v)) /\
  (forall (self : IFLTC.t) V t I (i : nat) v vrest r iv tau0,
     get V i = Some v -> get I i = Some iv ->
     get (IFLTC.V_rest self) i = Some vrest ->
     get (IFLTC.R self) i = Some r ->
     get (IFLTC.tau self) i = Some tau0 ->
     0 < tau0 ->
     exists d, get (IF.derivative self V t I) i = Some d /\
               (0 < d <-> v < vrest + r * iv) /\
               (d == 0 <-> v == vrest + r * iv) /\
               (d < 0 <-> vrest + r * iv < v)).
Proof.
  assert (forall v vrest r iv tau0 : Q,
            0 < tau0 ->
            let d := (- v + vrest + r * iv) / tau0 in
            (0 < d <-> v < vrest + r * iv) /\
            (d == 0 <-> v == vrest + r * iv) /\
            (d < 0 <-> vrest + r * iv < v)) as Hsign.
  { intros v vrest r iv tau0 Ht d.
    assert (d * tau0 == - v + vrest + r * iv) as Hd
      by (subst d; field; lra).
    clearbody d. repeat split; intros H; nra. }
  split.
  - intros self V t I i v vrest r iv tau0 Hv Hi Hvr Hr Ht Hpos.
    eexists. split; [unfold Lif.derivative; arr_get; reflexivity|].
    by apply Hsign.
  - intros self V t I i v vrest r iv tau0 Hv Hi Hvr Hr Ht Hpos.
    eexists. split; [unfold IF.derivative; arr_get; reflexivity|].
    by apply Hsign.
Qed.

Lemma leaky_derivative_sign_witness :
  let self := demo_lif NonBatchingMode heaviside DBool in
  exists d, get (Lif.derivative self (Vec [18; 0]) 0 (Vec [58; 0])) 0 = Some d /\ 0 < d.
Proof.
  intros self.
  destruct leaky_derivative_sign as (H & _).
  edestruct (H self (Vec [18; 0]) 0 (Vec [58; 0]) 0%nat) as (d & Hd & Hpos & _);
    [vm_compute; reflexivity .. | qconc |].
  exists d. split; [exact Hd|]. apply Hpos. qconc.
Defined.

(** X11. With no registered current input and zero external input, the
    resting state is an equilibrium: every derivative of the AdQuaIF
    system vanishes at [V = V_rest], [w = 0], and every derivative of the
    Gif system vanishes at [V = V_rest], [I1 = I2 = 0],
    [V_th = V_th_inf]. *)
Theorem rest_states_are_equilibria :
  (forall (self : AdQuaIFLTC.t) V w t I (i : nat) v wv iv vrest vc cq aq tau0 tauw,
     cur_inputs (AdQuaIFLTC.base self) = [] ->
     get V i = Some v -> get w i = Some wv -> get I i = Some iv ->
     get (AdQuaIFLTC.V_rest self) i = Some vrest ->
     get (AdQuaIFLTC.V_c self) i = Some vc ->
     get (AdQuaIFLTC.c self) i = Some cq ->
     get (AdQuaIFLTC.a self) i = Some aq ->
     get (AdQuaIFLTC.tau self) i = Some tau0 ->
     get (AdQuaIFLTC.tau_w self) i = Some tauw ->
     ~ tau0 == 0 -> ~ tauw == 0 ->
     v == vrest -> wv == 0 -> iv == 0 ->
     exists d1 d2,
       get (fst (AdQuaIFLTC.derivative self (V, w) t I)) i = Some d1 /\
       get (snd (AdQuaIFLTC.derivative self (V, w) t I)) i = Some d2 /\
       d1 == 0 /\ d2 == 0) /\
  (forall (self : GifLTC.t) I1 I2 V_th V t I (i : nat)
          i1 i2 vth v iv vrest vinf r tau0 aq bq k1q k2q,
     cur_inputs (GifLTC.base self) = [] ->
     get I1 i = Some i1 -> get I2 i = Some i2 -> get V_th i = Some vth ->
     get V i = Some v -> get I i = Some iv ->
     get (GifLTC.V_rest self) i = Some vrest ->
     get (GifLTC.V_th_inf self) i = Some vinf ->
     get (GifLTC.R self) i = Some r ->
     get (GifLTC.tau self) i = Some tau0 ->
     get (GifLTC.a self) i = Some aq -> get (GifLTC.b self) i = Some bq ->
     get (GifLTC.k1 self) i = Some k1q -> get (GifLTC.k2 self) i = Some k2q ->
     ~ tau0 == 0 ->
     v == vrest -> vth == vinf -> i1 == 0 -> i2 == 0 -> iv == 0 ->
     exists d1 d2 d3 d4,
       GifLTC.derivative self (I1, I2, V_th, V) t I
         = (GifLTC.dI1 self I1 t, GifLTC.dI2 self I2 t,
            GifLTC.dVth self V_th t V, GifLTC.dV self V t I1 I2 I) /\
       get (GifLTC.dI1 self I1 t) i = Some d1 /\
       get (GifLTC.dI2 self I2 t) i = Some d2 /\
       get (GifLTC.dVth self V_th t V) i = Some d3 /\
       get (GifLTC.dV self V t I1 I2 I) i = Some d4 /\
       d1 == 0 /\ d2 == 0 /\ d3 == 0 /\ d4 == 0).
Proof.
  split.
  - intros self V w t I i v wv iv vrest vc cq aq tau0 tauw
      Hcur Hv Hw Hi Hvr Hvc Hc Ha Ht Htw Ht0 Htw0 Ev Ew Ei.
    eexists _, _. simpl.
    split; [unfold AdQuaIFLTC.dV, sum_cur_inputs; rewrite Hcur; simpl;
            arr_get; reflexivity|].
    split; [unfold AdQuaIFLTC.dw; arr_get; reflexivity|].
    rewrite Ev, Ew, Ei. split; field; done.
  - intros self I1 I2 V_th V t I i i1 i2 vth v iv vrest vinf r tau0 aq bq k1q k2q
      Hcur Hi1 Hi2 Hvth Hv Hi Hvr Hinf Hr Ht Ha Hb Hk1 Hk2 Ht0 Ev Evth E1 E2 Ei.
    eexists _, _, _, _.
    split; [reflexivity|].
    split; [unfold GifLTC.dI1; arr_get; reflexivity|].
    split; [unfold GifLTC.dI2; arr_get; reflexivity|].
    split; [unfold GifLTC.dVth; arr_get; reflexivity|].
    split; [unfold GifLTC.dV, sum_cur_inputs; rewrite Hcur; simpl;
            arr_get; reflexivity|].
    rewrite Ev, Evth, E1, E2, Ei. repeat split; try ring. field. done.
Qed.

Lemma rest_states_are_equilibria_witness :
  let self := demo_gif NonBatchingMode heaviside DBool (OneInit (-50)) in
  let st := GifLTC.reset_state self
              (GifLTC.mkState (Vec []) (Vec []) (Vec []) (Vec []) (SpkBool (Vec [])))
              None in
  exists d4, get (GifLTC.dV self (GifLTC.V st) 0 (GifLTC.I1 st) (GifLTC.I2 st)
                    (Scal 0)) 0 = Some d4 /\ d4 == 0.
Proof.
  intros self st.
  destruct rest_states_are_equilibria as (_ & H).
  edestruct (H self (GifLTC.I1 st) (GifLTC.I2 st) (GifLTC.V_th st) (GifLTC.V st) 0
               (Scal 0) 0%nat)
    as (d1 & d2 & d3 & d4 & _ & _ & _ & _ & Hd4 & _ & _ & _ & E4);
    [reflexivity | vm_compute; reflexivity .. | | | | | | |]; try qconc.
  exists d4. split; [exact Hd4 | exact E4].
Defined.

(** ** The leaky integrator under explicit Euler *)

(** X12. A pure leaky integrator (IFLTC) with no registered current input,
    stepped [n] times with zero input and step [dt] by the explicit Euler
    scheme, relaxes geometrically towards rest:
    [V_n - V_rest = (1 - dt / tau) ^ n * (V_0 - V_rest)]. *)
Theorem IFLTC_euler_decay (self : IFLTC.t) (i : nat) (vrest r tau0 dt : Q) :
  IFLTC.method self = euler ->
  cur_inputs (IFLTC.base self) = [] ->
  get (IFLTC.V_rest self) i = Some vrest ->
  get (IFLTC.R self) i = Some r ->
  get (IFLTC.tau self) i = Some tau0 ->
  ~ tau0 == 0 ->
  forall ticks st v0,
    Forall (fun tick => share_dt (fst tick) = dt /\ snd tick = None) ticks ->
    get (IFLTC.V st) i = Some v0 ->
    exists vn,
      get (IFLTC.V (IFLTC.run self ticks st)) i = Some vn /\
      vn - vrest == (1 - dt / tau0) ^ Z.of_nat (length ticks) * (v0 - vrest).
Proof.
  intros Hmeth Hcur Hvr Hr Ht Ht0 ticks.
  induction ticks as [|[sh x] ticks IH]; intros st v0 Hall Hv.
  { exists v0. split; [done|]. simpl. ring. }
  apply Forall_cons in Hall as [[Hdt Hx] Hall]. simpl in Hdt, Hx. subst x.
  change (IFLTC.run self ((sh, None) :: ticks) st) with
    (IFLTC.run self ticks (fst (IFLTC.update self sh st None))).
  assert (get (IFLTC.V (fst (IFLTC.update self sh st None))) i
          = Some (v0 + dt * ((- v0 + vrest + r * 0) / tau0))) as Hv1.
  { unfold IFLTC.update, IFLTC.update_with, IFLTC.integral. simpl.
    rewrite Hmeth, Hdt. unfold euler, IFLTC.derivative, sum_cur_inputs.
    rewrite Hcur. simpl. arr_get. done. }
  destruct (IH _ _ Hall Hv1) as (vn & Hvn & Evn).
  exists vn. split; [exact Hvn|].
  rewrite Evn. simpl length. rewrite Nat2Z.inj_succ. unfold Z.succ.
  rewrite Qpower_plus' by lia. rewrite Qpower_1_r. field. done.
Qed.

(** [tau = 10], [dt = 1]: three steps from 8 leave [8 * (9/10)^3]. *)
Lemma IFLTC_euler_decay_witness :
  let self := IFLTC.mk (demo_base NonBatchingMode heaviside DBool)
                       (Scal 0) (Scal 1) (Scal 10) ZeroInit euler in
  let ticks := [(demo_tick 0, None); (demo_tick 1, None); (demo_tick 2, None)] in
  exists vn, get (IFLTC.V (IFLTC.run self ticks (IFLTC.mkState (Vec [8; 0])))) 0 = Some vn /\
             vn == 5.832.
Proof.
  intros self ticks.
  destruct (IFLTC_euler_decay self 0%nat 0 1 10 1 eq_refl eq_refl eq_refl eq_refl eq_refl
              ltac:(qconc) ticks (IFLTC.mkState (Vec [8; 0])) 8) as (vn & Hvn & E).
  - subst ticks. repeat (apply Forall_cons; split; [done|]). by apply Forall_nil.
  - reflexivity.
  - exists vn. split; [exact Hvn|].
    revert Hvn. vm_compute. intros Hvn. injection Hvn as <-. reflexivity.
Defined.

(** * Activation functions *)

Lemma Qlt_bool_iff (a b : Q) : Qlt_bool a b = true <-> a < b.
Proof. unfold Qlt_bool. rewrite negb_true_iff. apply Qle_bool_false. Qed.

Lemma Qlt_bool_false (a b : Q) : Qlt_bool a b = false <-> b <= a.
Proof. unfold Qlt_bool. rewrite negb_false_iff. apply Qle_bool_iff. Qed.

Ltac act_get := unfold lt, bm_abs in *; arr_get.

Lemma get_relu6 (x : Arr Q) (i : nat) (v : Q) :
  get x i = Some v -> get (relu6 x) i = Some (Qmin (Qmax v 0) 6).
Proof. intros Hv. unfold relu6. act_get. done. Qed.

Lemma get_hard_sigmoid (x : Arr Q) (i : nat) (v : Q) :
  get x i = Some v -> get (hard_sigmoid x) i = Some (Qmin (Qmax (v + 3) 0) 6 / 6).
Proof. intros Hv. unfold hard_sigmoid, relu6. act_get. done. Qed.

Lemma relu6_cases (v : Q) :
  (v <= 0 /\ Qmin (Qmax v 0) 6 == 0) \/
  (0 <= v <= 6 /\ Qmin (Qmax v 0) 6 == v) \/
  (6 <= v /\ Qmin (Qmax v 0) 6 == 6).
Proof.
  destruct (Q.max_spec v 0) as [[H1 E1]|[H1 E1]];
    destruct (Q.min_spec (Qmax v 0) 6) as [[H2 E2]|[H2 E2]];
    rewrite E2; rewrite ?E1 in *; first [left; split; lra | right; left; split; lra
                                        | right; right; split; lra].
Qed.

(** X13. [relu6] keeps every element within [0, 6], leaves elements of that
    interval unchanged, is idempotent and is monotone. *)
Theorem relu6_clamps (x x' : Arr Q) (i : nat) (v v' : Q) :
  get x i = Some v -> get x' i = Some v' ->
  exists y y' z,
    get (relu6 x) i = Some y /\ get (relu6 x') i = Some y' /\
    get (relu6 (relu6 x)) i = Some z /\
    0 <= y <= 6 /\
    (0 <= v <= 6 -> y == v) /\
    z == y /\
    (v <= v' -> y <= y').
Proof.
  intros Hv Hv'.
  pose proof (get_relu6 x i v Hv) as Hy.
  pose proof (get_relu6 x' i v' Hv') as Hy'.
  pose proof (get_relu6 _ i _ Hy) as Hz.
  eexists _, _, _. split; [exact Hy|]. split; [exact Hy'|]. split; [exact Hz|].
  destruct (relu6_cases v) as [[? E]|[[? E]|[? E]]];
    destruct (relu6_cases v') as [[? E']|[[? E']|[? E']]];
    destruct (relu6_cases (Qmin (Qmax v 0) 6)) as [[? Ez]|[[? Ez]|[? Ez]]];
    rewrite Ez, E, ?E' in *; repeat split; intros; lra.
Qed.

Lemma relu6_clamps_witness :
  exists y, get (relu6 (Vec [-2; 3; 9])) 2 = Some y /\ 0 <= y <= 6.
Proof.
  destruct (relu6_clamps (Vec [-2; 3; 9]) (Vec [-2; 3; 9]) 2 9 9 eq_refl eq_refl)
    as (y & _ & _ & Hy & _ & _ & Hr & _).
  exists y. split; [exact Hy | exact Hr].
Defined.

(** X14. [hard_sigmoid] is a monotone map into [0, 1] that is 0 up to -3, 1
    from 3 on and the line [(x + 3) / 6] in between. *)
Theorem hard_sigmoid_saturates (x x' : Arr Q) (i : nat) (v v' : Q) :
  get x i = Some v -> get x' i = Some v' ->
  exists y y',
    get (hard_sigmoid x) i = Some y /\ get (hard_sigmoid x') i = Some y' /\
    0 <= y <= 1 /\
    (v <= -3 -> y == 0) /\
    (3 <= v -> y == 1) /\
    (-3 <= v <= 3 -> y == (v + 3) / 6) /\
    (v <= v' -> y <= y').
Proof.
  intros Hv Hv'.
  eexists _, _. split; [by apply get_hard_sigmoid|]. split; [by apply get_hard_sigmoid|].
  pose proof (relu6_cases (v + 3)) as C. pose proof (relu6_cases (v' + 3)) as C'.
  set (r := Qmin (Qmax (v + 3) 0) 6) in *.
  set (r' := Qmin (Qmax (v' + 3) 0) 6) in *.
  assert (r / 6 * 6 == r) as Hy by (field; lra).
  assert (r' / 6 * 6 == r') as Hy' by (field; lra).
  assert ((v + 3) / 6 * 6 == v + 3) as Hl by (field; lra).
  set (y := r / 6) in *. set (y' := r' / 6) in *. set (m := (v + 3) / 6) in *.
  clearbody y y' m r r'.
  destruct C as [[? E]|[[? E]|[? E]]]; destruct C' as [[? E']|[[? E']|[? E']]];
    repeat split; intros; lra.
Qed.

Lemma hard_sigmoid_saturates_witness :
  exists y, get (hard_sigmoid (Vec [-5; 0; 4])) 1 = Some y /\ y == 1 # 2.
Proof.
  destruct (hard_sigmoid_saturates (Vec [-5; 0; 4]) (Vec [-5; 0; 4]) 1 0 0 eq_refl eq_refl)
    as (y & _ & Hy & _ & _ & _ & _ & Hmid & _).
  exists y. split; [exact Hy|]. rewrite Hmid; [reflexivity|]. split; qconc.
Defined.

Lemma get_hard_tanh (x : Arr Q) (i : nat) (v : Q) :
  get x i = Some v ->
  get (hard_tanh x) i =
    Some (if Qgt_bool v 1 then 1 else if Qlt_bool v (-1) then -1 else v).
Proof. intros Hv. unfold hard_tanh. act_get. done. Qed.

Lemma hard_tanh_cases (v : Q) :
  let y := if Qgt_bool v 1 then 1 else if Qlt_bool v (-1) then -1 else v in
  (1 < v /\ y = 1) \/ (v < -1 /\ y = -1) \/ (-1 <= v <= 1 /\ y = v).
Proof.
  intros y. subst y. destruct (Qgt_bool v 1) eqn:E1.
  - apply Qgt_bool_iff in E1. left. done.
  - apply Qgt_bool_false in E1. destruct (Qlt_bool v (-1)) eqn:E2.
    + apply Qlt_bool_iff in E2. right; left. done.
    + apply Qlt_bool_false in E2. right; right. done.
Qed.

(** X15. [hard_tanh] clips every element to [-1, 1], leaves elements of that
    interval unchanged, is idempotent and is an odd function. *)
Theorem hard_tanh_clips (x : Arr Q) (i : nat) (v : Q) :
  get x i = Some v ->
  exists y yn z,
    get (hard_tanh x) i = Some y /\
    get (hard_tanh (neg x)) i = Some yn /\
    get (hard_tanh (hard_tanh x)) i = Some z /\
    -1 <= y <= 1 /\
    (-1 <= v <= 1 -> y = v) /\
    z == y /\
    yn == - y.
Proof.
  intros Hv.
  assert (get (neg x) i = Some (- v)) as Hn by (arr_get; done).
  pose proof (get_hard_tanh x i v Hv) as Hy.
  pose proof (get_hard_tanh _ i _ Hn) as Hyn.
  pose proof (get_hard_tanh _ i _ Hy) as Hz.
  eexists _, _, _. split; [exact Hy|]. split; [exact Hyn|]. split; [exact Hz|].
  pose proof (hard_tanh_cases v) as C. pose proof (hard_tanh_cases (- v)) as Cn.
  simpl in C, Cn.
  set (y := if Qgt_bool v 1 then _ else _) in *.
  pose proof (hard_tanh_cases y) as Cz. simpl in Cz.
  set (z := if Qgt_bool y 1 then _ else _) in *.
  set (yn := if Qgt_bool (- v) 1 then _ else _) in *.
  clearbody z yn y.
  destruct C as [[? E]|[[? E]|[? E]]]; destruct Cn as [[? En]|[[? En]|[? En]]];
    destruct Cz as [[? Ez]|[[? Ez]|[? Ez]]]; subst;
    repeat split; intros; try lra; try done.
Qed.

Lemma hard_tanh_clips_witness :
  exists y, get (hard_tanh (Vec [-4; 1 # 2; 7])) 2 = Some y /\ -1 <= y <= 1.
Proof.
  destruct (hard_tanh_clips (Vec [-4; 1 # 2; 7]) 2 7 eq_refl)
    as (y & _ & _ & Hy & _ & _ & Hr & _).
  exists y. split; [exact Hy | exact Hr].
Defined.

Lemma Qsquare_nonneg (a : Q) : 0 <= a * a.
Proof.
  destruct (Qlt_le_dec a 0) as [Hn|Hp].
  - assert (a * a == (- a) * (- a)) as -> by ring.
    apply Qmult_le_0_compat; lra.
  - by apply Qmult_le_0_compat.
Qed.

(** X16. [hard_silu] is the identity from 3 on, vanishes up to -3, is
    non-negative on non-negative elements and never falls below -3/8. *)
Theorem hard_silu_bounds (x : Arr Q) (i : nat) (v : Q) :
  get x i = Some v ->
  exists y,
    get (hard_silu x) i = Some y /\
    (3 <= v -> y == v) /\
    (v <= -3 -> y == 0) /\
    (0 <= v -> 0 <= y <= v) /\
    - (3 # 8) <= y.
Proof.
  intros Hv. pose proof (get_hard_sigmoid x i v Hv) as Hs.
  eexists. split; [unfold hard_silu; arr_get; reflexivity|].
  pose proof (relu6_cases (v + 3)) as C.
  set (r := Qmin (Qmax (v + 3) 0) 6) in *.
  assert (r / 6 * 6 == r) as Hy by (field; lra).
  set (s := r / 6) in *. clearbody s r.
  pose proof (Qsquare_nonneg (2 * v + 3)) as Hsq.
  destruct C as [[? E]|[[? E]|[? E]]].
  - assert (s == 0) as -> by lra. repeat split; intros; lra.
  - assert (s == (v + 3) * (1 # 6)) as -> by lra. repeat split; intros; nra.
  - assert (s == 1) as -> by lra. repeat split; intros; lra.
Qed.

Lemma hard_silu_bounds_witness :
  exists y, get (hard_silu (Vec [-3 # 2; 5])) 0 = Some y /\ y == - (3 # 8).
Proof.
  destruct (hard_silu_bounds (Vec [-3 # 2; 5]) 0 (-3 # 2) eq_refl) as (y & Hy & _).
  exists y. split; [exact Hy|].
  revert Hy. vm_compute. intros Hy. injection Hy as <-. reflexivity.
Defined.

Lemma get_leaky_relu (x : Arr Q) (slope : Q) (i : nat) (v : Q) :
  get x i = Some v ->
  get (leaky_relu x slope) i = Some (if Qle_bool 0 v then v else slope * v).
Proof. intros Hv. unfold leaky_relu. act_get. done. Qed.

(** X17. [leaky_relu] with a slope in [0, 1] is monotone, never below its
    argument, the identity on non-negative elements and [slope * x] on
    negative ones. *)
Theorem leaky_relu_shape (x x' : Arr Q) (slope : Q) (i : nat) (v v' : Q) :
  0 <= slope <= 1 ->
  get x i = Some v -> get x' i = Some v' ->
  exists y y',
    get (leaky_relu x slope) i = Some y /\
    get (leaky_relu x' slope) i = Some y' /\
    (0 <= v -> y = v) /\
    (v < 0 -> y = slope * v /\ y <= 0) /\
    v <= y /\
    (v <= v' -> y <= y').
Proof.
  intros Hs Hv Hv'.
  eexists _, _. split; [by apply get_leaky_relu|]. split; [by apply get_leaky_relu|].
  destruct (Qle_bool 0 v) eqn:E; destruct (Qle_bool 0 v') eqn:E';
    [apply Qle_bool_iff in E | apply Qle_bool_iff in E | apply Qle_bool_false in E
     | apply Qle_bool_false in E];
    [apply Qle_bool_iff in E' | apply Qle_bool_false in E' | apply Qle_bool_iff in E'
     | apply Qle_bool_false in E'];
    repeat split; intros; try done; try nra.
Qed.

Lemma leaky_relu_shape_witness :
  exists y, get (leaky_relu (Vec [-3; 2]) 0.01 ) 0 = Some y /\ y = 0.01 * -3.
Proof.
  destruct (leaky_relu_shape (Vec [-3; 2]) (Vec [-3; 2]) 0.01 0 (-3) (-3))
    as (y & y' & Hy & _ & _ & Hneg & _); [split; qconc | reflexivity | reflexivity |].
  exists y. split; [exact Hy|]. apply Hneg. qconc.
Defined.



(** ** Axis canonicalization and one-hot encoding *)

(** X19. [_canonicalize_axis] succeeds exactly on axes in
    [-num_dims, num_dims); its result is the axis modulo [num_dims], lies
    in [0, num_dims), and is a fixed point of the canonicalization. *)
Theorem canonicalize_axis_spec (axis num_dims : Z) :
  match _canonicalize_axis axis num_dims with
  | Some a =>
      (- num_dims <= axis < num_dims)%Z /\
      (0 <= a < num_dims)%Z /\
      a = (axis mod num_dims)%Z /\
      _canonicalize_axis a num_dims = Some a
  | None => ~ (- num_dims <= axis < num_dims)%Z
  end.
Proof.
  unfold _canonicalize_axis.
  destruct (- num_dims <=? axis)%Z eqn:E1; destruct (axis <? num_dims)%Z eqn:E2;
    simpl; try lia.
  apply Z.leb_le in E1. apply Z.ltb_lt in E2.
  destruct (axis <? 0)%Z eqn:E3;
    [apply Z.ltb_lt in E3 | apply Z.ltb_ge in E3].
  - assert ((- num_dims <=? axis + num_dims)%Z = true) as -> by lia.
    assert ((axis + num_dims <? num_dims)%Z = true) as -> by lia.
    assert ((axis + num_dims <? 0)%Z = false) as -> by lia.
    simpl. repeat split; try lia.
    apply (Z.mod_unique _ _ (-1)); lia.
  - assert ((axis <? 0)%Z = false) as -> by lia.
    assert ((- num_dims <=? axis)%Z = true) as -> by lia.
    assert ((axis <? num_dims)%Z = true) as -> by lia.
    simpl. repeat split; try lia.
    symmetry. apply Z.mod_small. lia.
Qed.


Lemma one_hot_last (x : list Z) (num_classes : nat) (axis : Z) :
  axis = (-1)%Z \/ axis = 1%Z ->
  one_hot x num_classes axis =
  Some ((fun xi => hit xi <$> seqZ 0 (Z.of_nat num_classes)) <$> x).
Proof. by intros [-> | ->]. Qed.

Lemma one_hot_first (x : list Z) (num_classes : nat) (axis : Z) :
  axis = (-2)%Z \/ axis = 0%Z ->
  one_hot x num_classes axis =
  Some ((fun k => (fun xi => hit xi k) <$> x) <$> seqZ 0 (Z.of_nat num_classes)).
Proof. by intros [-> | ->]. Qed.

(** X20. [one_hot] on a rank-1 index tensor raises exactly for an axis outside
    [-2, 2). *)
Theorem one_hot_axis_error (x : list Z) (num_classes : nat) (axis : Z) :
  one_hot x num_classes axis = None <-> ~ (-2 <= axis < 2)%Z.
Proof.
  unfold one_hot, _canonicalize_axis.
  change (Z.of_nat (1 + 1)) with 2%Z. change (- (2))%Z with (-2)%Z.
  destruct (Z.leb_spec (-2) axis); destruct (Z.ltb_spec axis 2); simpl;
    split; intros H'; try done; lia.
Qed.



(** X22. With the class dimension first, [one_hot] is the transpose of the
    encoding with the class dimension last. *)
Theorem one_hot_axis_transposes (x : list Z) (num_classes : nat) (axis : Z) (i k : nat) :
  axis = (-2)%Z \/ axis = 0%Z ->
  (i < length x)%nat -> (k < num_classes)%nat ->
  exists m m' row col v,
    one_hot x num_classes (-1) = Some m /\
    one_hot x num_classes axis = Some m' /\
    length m' = num_classes /\
    m !! i = Some row /\ row !! k = Some v /\
    m' !! k = Some col /\ col !! i = Some v /\
    length col = length x.
Proof.
  intros Hax Hi Hk.
  destruct (lookup_lt_is_Some_2 x i Hi) as [xi Hxi].
  eexists _, _, _, _, _.
  split; [apply one_hot_last; by left|].
  split; [by apply one_hot_first|].
  split; [by rewrite length_fmap, length_seqZ, Nat2Z.id|].
  split; [by rewrite list_lookup_fmap, Hxi|].
  split; [rewrite list_lookup_fmap, lookup_seqZ_lt by lia; reflexivity|].
  split; [rewrite list_lookup_fmap, lookup_seqZ_lt by lia; reflexivity|].
  split; [by rewrite list_lookup_fmap, Hxi|].
  by rewrite length_fmap.
Qed.

Lemma one_hot_axis_transposes_witness :
  exists m' col, one_hot [2; 7; 1]%Z 3 0 = Some m' /\ m' !! 1%nat = Some col /\ col = [0; 0; 1].
Proof.
  destruct (one_hot_axis_transposes [2; 7; 1]%Z 3 0 2 1 (or_intror eq_refl))
    as (m & m' & row & col & v & _ & Hm' & _ & _ & _ & Hc & _); [simpl; lia | lia |].
  exists m', col. split; [exact Hm'|]. split; [exact Hc|].
  revert Hm' Hc. vm_compute. intros Hm'. injection Hm' as <-. intros Hc.
  injection Hc as <-. reflexivity.
Defined.

(** ** The COBA benchmark neuron and synapses *)

(** X23. Both conductances decay by a fixed factor at every step, spiking or
    refractory alike: after the steps at [ts], [ge] has been multiplied
    by [(4/5)^n] and [gi] by [(9/10)^n]. *)
Theorem COBA_conductance_decay (ST : COBA.NeuState) (ts : list Q) :
  COBA.ge (COBA.neu_run ST ts) == (4 # 5) ^ Z.of_nat (length ts) * COBA.ge ST /\
  COBA.gi (COBA.neu_run ST ts) == (9 # 10) ^ Z.of_nat (length ts) * COBA.gi ST.
Proof.
  revert ST. induction ts as [|t ts IH]; intros ST.
  { simpl. split; ring. }
  change (COBA.neu_run ST (t :: ts)) with (COBA.neu_run (COBA.neu_update ST t) ts).
  destruct (IH (COBA.neu_update ST t)) as [Ee Ei]. rewrite Ee, Ei.
  assert (COBA.ge (COBA.neu_update ST t) == (4 # 5) * COBA.ge ST /\
          COBA.gi (COBA.neu_update ST t) == (9 # 10) * COBA.gi ST) as [-> ->].
  { unfold COBA.neu_update. cbv zeta. simpl COBA.sp_t. simpl COBA.V.
    destruct (Qgt_bool _ _); [destruct (Qle_bool _ _)|]; simpl;
      unfold COBA.taue, COBA.taui; split; field. }
  simpl length. rewrite Nat2Z.inj_succ. unfold Z.succ.
  rewrite !Qpower_plus' by lia. rewrite !Qpower_1_r. split; ring.
Qed.

Lemma COBA_neu_update_cases (ST : COBA.NeuState) (t : Q) :
  let ST' := COBA.neu_update ST t in
  (COBA.ref < t - COBA.sp_t ST /\ COBA.Vt <= COBA.V ST /\
   COBA.spike ST' = 1 /\ COBA.V ST' = COBA.Vr /\ COBA.sp_t ST' = t) \/
  (COBA.ref < t - COBA.sp_t ST /\ COBA.V ST < COBA.Vt /\
   COBA.spike ST' = 0 /\ COBA.sp_t ST' = COBA.sp_t ST /\
   COBA.V ST' =
     COBA.V ST +
     ((COBA.ge ST - COBA.ge ST / COBA.taue) * (COBA.Erev_exc - COBA.V ST) +
      (COBA.gi ST - COBA.gi ST / COBA.taui) * (COBA.Erev_inh - COBA.V ST) +
      (COBA.El - COBA.V ST) + COBA.I) / COBA.taum * COBA.dt) \/
  (t - COBA.sp_t ST <= COBA.ref /\
   COBA.spike ST' = 0 /\ COBA.sp_t ST' = COBA.sp_t ST /\ COBA.V ST' = COBA.V ST).
Proof.
  intros ST'. subst ST'. unfold COBA.neu_update. cbv zeta.
  simpl COBA.sp_t. simpl COBA.V.
  destruct (Qgt_bool (t - COBA.sp_t ST) COBA.ref) eqn:E;
    [apply Qgt_bool_iff in E | apply Qgt_bool_false in E].
  - destruct (Qle_bool COBA.Vt (COBA.V ST)) eqn:E';
      [apply Qle_bool_iff in E' | apply Qle_bool_false in E'].
    + left. done.
    + right. left. done.
  - right. right. done.
Qed.

(** X24. One step of the benchmark neuron: the spike entry is 0 or 1; it is 1
    exactly when the neuron is out of its refractory period and the
    voltage held before the step is at or above threshold, and then the
    voltage is reset to [Vr] and the spike time set to the step time;
    a refractory step keeps voltage and spike time; a step below
    threshold commits the Euler update even when that crosses [Vt]. *)
Theorem COBA_spike_rule (ST : COBA.NeuState) (t : Q) :
  let ST' := COBA.neu_update ST t in
  (COBA.spike ST' = 1 \/ COBA.spike ST' = 0) /\
  (COBA.spike ST' = 1 <->
   COBA.ref < t - COBA.sp_t ST /\ COBA.Vt <= COBA.V ST) /\
  (COBA.spike ST' = 1 -> COBA.V ST' = COBA.Vr /\ COBA.sp_t ST' = t) /\
  (COBA.spike ST' = 0 -> COBA.sp_t ST' = COBA.sp_t ST) /\
  (t - COBA.sp_t ST <= COBA.ref -> COBA.V ST' = COBA.V ST) /\
  (COBA.ref < t - COBA.sp_t ST -> COBA.V ST < COBA.Vt ->
   COBA.ge ST == 0 -> COBA.gi ST == 0 ->
   COBA.V ST' - (COBA.El + COBA.I) ==
   (1 - COBA.dt / COBA.taum) * (COBA.V ST - (COBA.El + COBA.I))).
Proof.
  intros ST'. destruct (COBA_neu_update_cases ST t) as
    [(Hr & Hv & Hs & HV & Ht)|[(Hr & Hv & Hs & Ht & HV)|(Hr & Hs & Ht & HV)]];
    fold ST' in Hs, HV, Ht; rewrite Hs.
  - split; [by left|]. split; [done|]. split; [done|]. split; [done|].
    split; intros; lra.
  - split; [by right|]. split; [split; [done | intros []; lra]|].
    split; [done|]. split; [done|]. split; [intros; lra|].
    intros _ _ Hge Hgi. rewrite HV, Hge, Hgi.
    unfold COBA.taue, COBA.taui, COBA.taum, COBA.dt. field.
  - split; [by right|]. split; [split; [done | intros []; lra]|].
    split; [done|]. split; [done|]. split; [done|]. intros; lra.
Qed.

(** X25. While every step time lies within [ref] of the recorded spike time,
    the neuron is frozen: voltage and spike time are kept and no spike is
    emitted. *)
Theorem COBA_refractory_window (ST : COBA.NeuState) (ts : list Q) :
  Forall (fun t => t - COBA.sp_t ST <= COBA.ref) ts ->
  COBA.V (COBA.neu_run ST ts) = COBA.V ST /\
  COBA.sp_t (COBA.neu_run ST ts) = COBA.sp_t ST /\
  (ts <> [] -> COBA.spike (COBA.neu_run ST ts) = 0).
Proof.
  revert ST. induction ts as [|t ts IH]; intros ST Hall.
  { done. }
  apply Forall_cons in Hall as [Ht Hall].
  change (COBA.neu_run ST (t :: ts)) with (COBA.neu_run (COBA.neu_update ST t) ts).
  destruct (COBA_neu_update_cases ST t) as
    [(Hr & _)|[(Hr & _)|(Hr & Hs & Hsp & HV)]]; [lra | lra |].
  destruct (IH (COBA.neu_update ST t)) as (EV & Esp & Es).
  { rewrite Hsp. exact Hall. }
  rewrite EV, Esp, HV, Hsp. split; [done|]. split; [done|]. intros _.
  destruct ts as [|t' ts]; [exact Hs | by apply Es].
Qed.

(** A neuron that spikes at time 0 stays at [Vr] for the steps at 1, 2
    and 5. *)
Lemma COBA_refractory_window_witness :
  let ST := COBA.neu_update (COBA.mkNeuState (-1e7) (-45) 0 1 1) 0 in
  COBA.spike ST = 1 /\ COBA.V (COBA.neu_run ST [1; 2; 5]) = COBA.Vr.
Proof.
  intros ST. split; [reflexivity|].
  destruct (COBA_refractory_window ST [1; 2; 5]) as (HV & _).
  - repeat (apply Forall_cons; split; [qconc|]). by apply Forall_nil.
  - rewrite HV. reflexivity.
Defined.

Lemma COBA_sp_t_provenance (ST : COBA.NeuState) (ts : list Q) :
  COBA.sp_t (COBA.neu_run ST ts) = COBA.sp_t ST \/
  COBA.sp_t (COBA.neu_run ST ts) ∈ ts.
Proof.
  revert ST. induction ts as [|t ts IH]; intros ST.
  { by left. }
  change (COBA.neu_run ST (t :: ts)) with (COBA.neu_run (COBA.neu_update ST t) ts).
  destruct (IH (COBA.neu_update ST t)) as [E|E].
  - rewrite E.
    destruct (COBA_neu_update_cases ST t) as
      [(_ & _ & _ & _ & Hsp)|[(_ & _ & _ & Hsp & _)|(_ & _ & Hsp & _)]];
      rewrite Hsp; [right; apply list_elem_of_here | by left | by left].
  - right. by apply list_elem_of_further.
Qed.

(** X26. A spike is emitted only more than [ref] after the recorded spike
    time, however many steps lie in between, as long as none of them is
    earlier than that time. *)
Theorem COBA_interspike_interval (ST : COBA.NeuState) (mid : list Q) (t : Q) :
  Forall (fun t' => COBA.sp_t ST <= t') mid ->
  COBA.spike (COBA.neu_update (COBA.neu_run ST mid) t) = 1 ->
  COBA.ref < t - COBA.sp_t ST /\
  COBA.sp_t (COBA.neu_update (COBA.neu_run ST mid) t) = t.
Proof.
  intros Hmid Hs.
  destruct (COBA_neu_update_cases (COBA.neu_run ST mid) t) as
    [(Hr & _ & _ & _ & Hsp)|[(_ & _ & Hs0 & _)|(_ & Hs0 & _)]];
    [|rewrite Hs0 in Hs; discriminate ..].
  split; [|exact Hsp].
  destruct (COBA_sp_t_provenance ST mid) as [E|E].
  - by rewrite E in Hr.
  - rewrite Forall_forall in Hmid. specialize (Hmid _ E). lra.
Qed.

(** Spike time 0, voltage above threshold: the steps at 1 and 2 are
    refractory and the step at 6 spikes. *)
Lemma COBA_interspike_interval_witness :
  let ST := COBA.mkNeuState 0 (-45) 0 1 1 in
  COBA.spike (COBA.neu_update (COBA.neu_run ST [1; 2]) 6) = 1 /\ COBA.ref < 6 - 0.
Proof.
  intros ST.
  assert (COBA.spike (COBA.neu_update (COBA.neu_run ST [1; 2]) 6) = 1) as Hs
    by reflexivity.
  split; [exact Hs|].
  apply (COBA_interspike_interval ST [1; 2] 6); [|exact Hs].
  repeat (apply Forall_cons; split; [qconc|]). by apply Forall_nil.
Defined.

Lemma inject_nat_S (n : nat) :
  inject_Z (Z.of_nat (S n)) == 1 + inject_Z (Z.of_nat n).
Proof. rewrite Nat2Z.inj_succ, <- Z.add_1_l, inject_Z_plus. reflexivity. Qed.

Lemma inject_nat_add (n m : nat) :
  inject_Z (Z.of_nat (n + m)) == inject_Z (Z.of_nat n) + inject_Z (Z.of_nat m).
Proof. rewrite Nat2Z.inj_add, inject_Z_plus. reflexivity. Qed.

Lemma COBA_add_at_spec (post post' : list Q) (i : nat) (w : Q) :
  COBA.add_at post i w = Some post' ->
  length post' = length post /\
  forall j v, post !! j = Some v ->
    post' !! j = Some (if decide (i = j) then v + w else v).
Proof.
  unfold COBA.add_at. destruct (post !! i) as [vi|] eqn:Ei; [|done].
  simpl. intros [= <-]. split; [by rewrite length_insert|].
  intros j v Hj. destruct (decide (i = j)) as [->|Hne].
  - rewrite list_lookup_insert_eq by (by eapply lookup_lt_Some).
    rewrite Ei in Hj. by injection Hj as ->.
  - by rewrite list_lookup_insert_ne.
Qed.

Lemma COBA_occurrences_cons (j i : nat) (ids : list nat) :
  COBA.occurrences j (i :: ids) =
  ((if decide (i = j) then 1 else 0) + COBA.occurrences j ids)%nat.
Proof.
  unfold COBA.occurrences. rewrite filter_cons.
  by destruct (decide (i = j)).
Qed.

Lemma COBA_add_all_spec (ids : list nat) (w : Q) (post post' : list Q) :
  COBA.add_all ids w post = Some post' ->
  length post' = length post /\
  forall j v, post !! j = Some v ->
    exists v', post' !! j = Some v' /\
               v' == v + inject_Z (Z.of_nat (COBA.occurrences j ids)) * w.
Proof.
  revert post. induction ids as [|i ids IH]; intros post.
  { simpl. intros [= <-]. split; [done|]. intros j v Hj. exists v.
    split; [done|]. unfold COBA.occurrences. simpl. ring. }
  simpl. destruct (COBA.add_at post i w) as [p1|] eqn:E1; [|done]. simpl.
  intros H. apply COBA_add_at_spec in E1 as [Hl1 H1].
  apply IH in H as [Hl H]. split; [congruence|].
  intros j v Hj. destruct (H j _ (H1 j v Hj)) as (v' & Hv' & Ev').
  exists v'. split; [exact Hv'|]. rewrite Ev', COBA_occurrences_cons, inject_nat_add.
  destruct (decide (i = j)); simpl; ring.
Qed.

Lemma COBA_syn_loop_spec (w : Q) (pre_spike : list Q) (pre2post : list (list nat))
    (pre_id : nat) (post post' : list Q) :
  COBA.syn_loop w pre_spike pre2post pre_id post = Some post' ->
  length post' = length post /\
  forall j v, post !! j = Some v ->
    exists v', post' !! j = Some v' /\
               v' == v + inject_Z (Z.of_nat (COBA.arrivals pre_spike pre2post pre_id j)) * w.
Proof.
  revert pre_id post. induction pre2post as [|ids rest IH]; intros pre_id post.
  { simpl. intros [= <-]. split; [done|]. intros j v Hj. exists v.
    split; [done|]. ring. }
  simpl. destruct (pre_spike !! pre_id) as [s|] eqn:Es; [|done]. simpl.
  destruct (Qgt_bool s 0) eqn:Eg.
  - destruct (COBA.add_all ids w post) as [p1|] eqn:E1; [|done]. simpl.
    intros H. apply COBA_add_all_spec in E1 as [Hl1 H1].
    apply IH in H as [Hl H]. split; [congruence|].
    intros j v Hj. destruct (H1 j v Hj) as (v1 & Hv1 & Ev1).
    destruct (H j v1 Hv1) as (v' & Hv' & Ev').
    exists v'. split; [exact Hv'|]. rewrite Ev', Ev1, inject_nat_add. ring.
  - simpl. intros H. apply IH in H as [Hl H]. split; [done|].
    intros j v Hj. destruct (H j v Hj) as (v' & Hv' & Ev').
    exists v'. split; [exact Hv'|]. rewrite Ev'. simpl. reflexivity.
Qed.

(** X27. A synaptic update that raises no index error keeps the size of the
    postsynaptic conductance array and adds to every entry the synaptic
    weight ([we] for [update1], [wi] for [update2]) once per arriving
    event: once for each occurrence of the entry's index among the
    targets of a presynaptic neuron with a positive spike entry. *)
Theorem COBA_synapse_accumulates (pre_spike post post' : list Q)
    (pre2post : list (list nat)) :
  (COBA.update1 pre_spike post pre2post = Some post' ->
   length post' = length post /\
   forall j v, post !! j = Some v ->
     exists v', post' !! j = Some v' /\
       v' == v + inject_Z (Z.of_nat (COBA.arrivals pre_spike pre2post 0 j)) * COBA.we) /\
  (COBA.update2 pre_spike post pre2post = Some post' ->
   length post' = length post /\
   forall j v, post !! j = Some v ->
     exists v', post' !! j = Some v' /\
       v' == v + inject_Z (Z.of_nat (COBA.arrivals pre_spike pre2post 0 j)) * COBA.wi).
Proof. split; apply COBA_syn_loop_spec. Qed.

(** Two spiking presynaptic neurons project to entry 1, one of them
    twice; the silent one is ignored. *)
Lemma COBA_synapse_accumulates_witness :
  exists post' v',
    COBA.update1 [1; 0; 1] [0; 0.5] [[1; 1]; [1]; [0; 1]]%nat = Some post' /\
    post' !! 1%nat = Some v' /\ v' == 0.5 + 3 * COBA.we.
Proof.
  destruct (COBA.update1 [1; 0; 1] [0; 0.5] [[1; 1]; [1]; [0; 1]]%nat) as [post'|] eqn:E;
    [|discriminate E].
  destruct (COBA_synapse_accumulates [1; 0; 1] [0; 0.5] post' [[1; 1]; [1]; [0; 1]]%nat)
    as [H _].
  destruct (H E) as [_ H1]. destruct (H1 1%nat 0.5) as (v' & Hv' & Ev').
  - revert E. vm_compute. intros [= <-]. reflexivity.
  - exists post', v'. split; [reflexivity|]. split; [exact Hv'|]. exact Ev'.
Defined.

Lemma COBA_add_all_defined (ids : list nat) (w : Q) (post : list Q) :
  is_Some (COBA.add_all ids w post) <-> Forall (fun i => (i < length post)%nat) ids.
Proof.
  revert post. induction ids as [|i ids IH]; intros post.
  { simpl. split; [intros _; by apply Forall_nil | by eexists]. }
  simpl. rewrite Forall_cons. unfold COBA.add_at at 1.
  destruct (post !! i) as [vi|] eqn:Ei; simpl.
  - rewrite IH, length_insert. apply lookup_lt_Some in Ei. tauto.
  - apply lookup_ge_None in Ei. split; [by intros [? ?] | intros [? _]; lia].
Qed.

Lemma COBA_syn_loop_defined (w : Q) (pre_spike : list Q) (pre2post : list (list nat))
    (pre_id : nat) (post : list Q) :
  is_Some (COBA.syn_loop w pre_spike pre2post pre_id post) <->
  (pre_id + length pre2post <= length pre_spike \/ pre2post = [])%nat /\
  forall k ids s, pre2post !! k = Some ids -> pre_spike !! (pre_id + k)%nat = Some s ->
    0 < s -> Forall (fun i => (i < length post)%nat) ids.
Proof.
  revert pre_id post. induction pre2post as [|ids rest IH]; intros pre_id post.
  { simpl. split; [intros _; split; [by right | done] | by eexists]. }
  simpl. destruct (pre_spike !! pre_id) as [s|] eqn:Es; simpl.
  - pose proof (lookup_lt_Some _ _ _ Es) as Hlt.
    destruct (Qgt_bool s 0) eqn:Eg;
      [apply Qgt_bool_iff in Eg | apply Qgt_bool_false in Eg].
    + destruct (COBA.add_all ids w post) as [p1|] eqn:E1; simpl.
      * assert (length p1 = length post) as Hl
          by (by apply COBA_add_all_spec in E1 as [? _]).
        assert (Forall (fun i => (i < length post)%nat) ids) as Hids
          by (apply (COBA_add_all_defined ids w); by rewrite E1).
        rewrite IH, Hl. split.
        -- intros [Hlen H]. split; [left; destruct Hlen as [?| ->]; simpl; lia|].
           intros [|k] ids' s' Hk Hs' Hpos.
           ++ simpl in Hk. by injection Hk as <-.
           ++ simpl in Hk. eapply (H k); [done| |done].
              by replace (S pre_id + k)%nat with (pre_id + S k)%nat by lia.
        -- intros [Hlen H]. split.
           ++ destruct Hlen as [?|?]; [|done].
              destruct rest; [by right | left; simpl in *; lia].
           ++ intros k ids' s' Hk Hs' Hpos. apply (H (S k) ids' s'); [done| |done].
              by replace (pre_id + S k)%nat with (S pre_id + k)%nat by lia.
      * split; [by intros [? ?]|]. intros [_ H]. exfalso.
        assert (is_Some (COBA.add_all ids w post)) as [? E]; [|congruence].
        apply COBA_add_all_defined. apply (H 0%nat ids s); [done| |done].
        by rewrite Nat.add_0_r.
    + simpl. rewrite IH. split.
      * intros [Hlen H]. split; [left; destruct Hlen as [?| ->]; simpl; lia|].
        intros [|k] ids' s' Hk Hs' Hpos.
        -- rewrite Nat.add_0_r in Hs'. rewrite Es in Hs'. injection Hs' as <-. lra.
        -- simpl in Hk. eapply (H k); [done| |done].
           by replace (S pre_id + k)%nat with (pre_id + S k)%nat by lia.
      * intros [Hlen H]. split.
        -- destruct Hlen as [?|?]; [|done].
           destruct rest; [by right | left; simpl in *; lia].
        -- intros k ids' s' Hk Hs' Hpos. apply (H (S k) ids' s'); [done| |done].
           by replace (pre_id + S k)%nat with (S pre_id + k)%nat by lia.
  - apply lookup_ge_None in Es. split; [by intros [? ?]|].
    intros [[Hlen|?] _]; [simpl in Hlen; lia | done].
Qed.

(** X28. A synaptic update ([update1] as well as [update2]) raises an index
    error exactly when the spike array is shorter than the connection
    table or a presynaptic neuron with a positive spike entry has a
    target outside the conductance array. *)
Theorem COBA_synapse_defined (pre_spike post : list Q) (pre2post : list (list nat)) :
  let in_range :=
    (length pre2post <= length pre_spike)%nat /\
    forall k ids s, pre2post !! k = Some ids -> pre_spike !! k = Some s ->
      0 < s -> Forall (fun i => (i < length post)%nat) ids in
  (COBA.update1 pre_spike post pre2post = None <-> ~ in_range) /\
  (COBA.update2 pre_spike post pre2post = None <-> ~ in_range).
Proof.
  intros in_range.
  assert (forall w, is_Some (COBA.syn_loop w pre_spike pre2post 0 post) <-> in_range)
    as Hdef.
  { intros w. rewrite COBA_syn_loop_defined. subst in_range. simpl. split.
    - intros [[Hl| ->] H]; (split; [simpl; lia | exact H]).
    - intros [Hl H]. split; [by left | exact H]. }
  unfold COBA.update1, COBA.update2.
  split; rewrite <- Hdef, <- not_eq_None_Some; split; intros H; [by intros []| |by intros []|].
  - destruct (COBA.syn_loop COBA.we pre_spike pre2post 0 post); [|done].
    exfalso. apply H. done.
  - destruct (COBA.syn_loop COBA.wi pre_spike pre2post 0 post); [|done].
    exfalso. apply H. done.
Qed.
